(** * Fraud-network widget: graph derivation, node styling and click dispatch

    A shallow embedding of [src/d3_graph.tsx] (the D3 force-directed
    [FraudNetworkWidget]).  The development follows the source file top to
    bottom:

    - [JsNumber], [JsSet], [JsMap]: the JavaScript values the widget relies on
      (IEEE-754 doubles with truthiness, insertion-ordered [Set] and [Map]);
    - the data model ([ClaimRecord], [ClaimNode], [Link]);
    - [buildGraphData], one definition per numbered step of the source;
    - [nodeRadius], [nodeColor], [handleNodeClick];
    - the component's render result and the simulation effect. *)

From Stdlib Require Import List String Ascii Bool Arith ZArith Lia.
From Stdlib Require Import Floats FinFun.
From Stdlib Require Uint63.
Import ListNotations.

Set Implicit Arguments.

Open Scope string_scope.
Open Scope list_scope.

(* ================================================================== *)
(** ** JavaScript numbers *)

(** A JavaScript [number] is an IEEE-754 binary64 value, which is what the
    kernel's primitive [float] is.  [x || 0] on a number keeps [x] unless it
    is falsy, and the falsy numbers are [0], [-0] and [NaN]. *)
Module JsNumber.

Definition number := float.

Definition falsy (x : number) : bool :=
  (PrimFloat.eqb x 0 || PrimFloat.is_nan x)%bool.

(** [x || 0] where [x : number | undefined]. *)
Definition orZero (x : option number) : number :=
  match x with
  | Some v => if falsy v then 0%float else v
  | None => 0%float
  end.

(** [a > b] *)
Definition gt (a b : number) : bool := PrimFloat.ltb b a.

End JsNumber.

(* ================================================================== *)
(** ** JavaScript [Set<string>]: insertion ordered, no duplicates *)

Module JsSet.

Definition t := list string.

Definition empty : t := [].

Fixpoint has (k : string) (s : t) : bool :=
  match s with
  | [] => false
  | k' :: r => if String.eqb k' k then true else has k r
  end.

(** [s.add(k)]: a value already present keeps its place. *)
Definition add (k : string) (s : t) : t :=
  if has k s then s else s ++ [k].

(** [new Set(array)] *)
Definition ofArray (l : list string) : t :=
  fold_left (fun s k => add k s) l empty.

End JsSet.

(* ================================================================== *)
(** ** JavaScript [Map<string, V>]: insertion ordered, set overwrites *)

Module JsMap.
Section WithValue.
Variable V : Type.

Definition t := list (string * V).

Definition empty : t := [].

Fixpoint has (k : string) (m : t) : bool :=
  match m with
  | [] => false
  | (k', _) :: r => if String.eqb k' k then true else has k r
  end.

(** [m.set(k, v)]: an existing key keeps its position and takes the new
    value; a new key goes last. *)
Fixpoint set (k : string) (v : V) (m : t) : t :=
  match m with
  | [] => [(k, v)]
  | (k', v') :: r =>
      if String.eqb k' k then (k', v) :: r else (k', v') :: set k v r
  end.

Definition keys (m : t) : list string := map fst m.

(** [Array.from(m.values())] *)
Definition values (m : t) : list V := map snd m.

End WithValue.

Arguments empty {V}.
End JsMap.

(* ================================================================== *)
(** ** Data model *)

Import JsNumber.

(** [claim.properties] of an [InsuranceClaim] object.  [policyholderId] is a
    [string]: the source stores it in [ClaimNode.primaryKey], whose type is
    [string].  The other properties are stored in optional fields. *)
Record ClaimProperties := {
  prop_claimId : option string;
  prop_claimAmount : option number;
  prop_anomalyScore : option number;
  prop_status : option string;
  prop_policyholderId : string
}.

Record ClaimRecord := {
  rec_primaryKey : string;
  properties : ClaimProperties
}.

(** The widget parameter [claims]: possibly undefined, with a possibly
    undefined [objects] array (the source guards both with [?.]). *)
Record ObjectSet := {
  objects : option (list ClaimRecord)
}.

Inductive NodeType := claim | policyholder | agent.

Definition NodeType_eqb (a b : NodeType) : bool :=
  match a, b with
  | claim, claim | policyholder, policyholder | agent, agent => true
  | _, _ => false
  end.

(** [interface ClaimNode].  The layout fields [x], [y], [vx], [vy] are written
    by the force simulation only and are not part of the derived graph. *)
Record ClaimNode := {
  id : string;
  type : NodeType;
  primaryKey : string;
  claimId : option string;
  claimAmount : option number;
  anomalyScore : option number;
  status : option string;
  policyholderId : option string;
  policyholderName : option string;
  riskProfile : option string;
  agentId : option string;
  agentName : option string
}.

Inductive LinkType := claim_policyholder | policyholder_agent.

(** [interface Link] *)
Record Link := {
  source : string;
  target : string;
  link_type : LinkType
}.

Record GraphData := {
  nodes : list ClaimNode;
  links : list Link
}.

(* ================================================================== *)
(** ** [buildGraphData] *)

Definition NodeMap := JsMap.t ClaimNode.

(** [claims.objects.slice(0, 200)] *)
Definition capped (objs : list ClaimRecord) : list ClaimRecord :=
  firstn 200 objs.

Definition claimNodeId (c : ClaimRecord) : string :=
  "claim-" ++ rec_primaryKey c.

Definition phNodeId (phId : string) : string := "ph-" ++ phId.

Definition agentNodeId (agentId : string) : string := "agent-" ++ agentId.

(** The object literal of step 1. *)
Definition claimNode (c : ClaimRecord) : ClaimNode :=
  {| id := claimNodeId c;
     type := claim;
     primaryKey := rec_primaryKey c;
     claimId := prop_claimId (properties c);
     claimAmount := prop_claimAmount (properties c);
     anomalyScore := prop_anomalyScore (properties c);
     status := prop_status (properties c);
     policyholderId := Some (prop_policyholderId (properties c));
     policyholderName := None;
     riskProfile := None;
     agentId := None;
     agentName := None |}.

(** The object literal of step 2. *)
Definition policyholderNode (phId : string) (sampleClaim : ClaimRecord)
  : ClaimNode :=
  {| id := phNodeId phId;
     type := policyholder;
     primaryKey := phId;
     claimId := None;
     claimAmount := None;
     anomalyScore := None;
     status := None;
     policyholderId := Some phId;
     policyholderName := Some (prop_policyholderId (properties sampleClaim));
     riskProfile := Some "High Risk";
     agentId := None;
     agentName := None |}.

(** The object literal of step 3. *)
Definition agentNode (a : string) : ClaimNode :=
  {| id := agentNodeId a;
     type := agent;
     primaryKey := a;
     claimId := None;
     claimAmount := None;
     anomalyScore := None;
     status := None;
     policyholderId := None;
     policyholderName := None;
     riskProfile := None;
     agentId := Some a;
     agentName := Some a |}.

(** Step 1, the body of the first [forEach]: [nodeMap.set(node.id, node)]. *)
Definition setClaim (m : NodeMap) (c : ClaimRecord) : NodeMap :=
  let node := claimNode c in
  JsMap.set (id node) node m.

(** Step 1: every capped claim is set into the map under its node id. *)
Definition addClaims (objs : list ClaimRecord) (m : NodeMap) : NodeMap :=
  fold_left setClaim (capped objs) m.

(** Step 2, the set of policyholder ids of the capped claims. *)
Definition policyholderIds (objs : list ClaimRecord) : JsSet.t :=
  JsSet.ofArray (map (fun c => prop_policyholderId (properties c)) (capped objs)).

(** Step 2, the body of [policyholderIds.forEach]. *)
Definition addPolicyholder (objs : list ClaimRecord) (m : NodeMap)
  (phId : string) : NodeMap :=
  match find (fun c => String.eqb (prop_policyholderId (properties c)) phId) objs with
  | Some sampleClaim =>
      if negb (JsMap.has (phNodeId phId) m)
      then JsMap.set (phNodeId phId) (policyholderNode phId sampleClaim) m
      else m
  | None => m
  end.

Definition addPolicyholders (objs : list ClaimRecord) (m : NodeMap) : NodeMap :=
  fold_left (addPolicyholder objs) (policyholderIds objs) m.

(** Step 3, first half: the agent ids found on the nodes.  A non-empty string
    is truthy.  The source computes this set and never reads it. *)
Definition agentIds (m : NodeMap) : JsSet.t :=
  fold_left (fun s n =>
               match agentId n with
               | Some a => if String.eqb a "" then s else JsSet.add a s
               | None => s
               end)
            (JsMap.values m) JsSet.empty.

Definition sampleAgents : list string := ["AGENT_0"; "AGENT_1"; "AGENT_2"].

(** Step 3, second half: the three sample agents. *)
Definition addAgent (m : NodeMap) (a : string) : NodeMap :=
  if negb (JsMap.has (agentNodeId a) m)
  then JsMap.set (agentNodeId a) (agentNode a) m
  else m.

Definition addAgents (m : NodeMap) : NodeMap :=
  fold_left addAgent sampleAgents m.

(** Step 4, the body of the last [forEach]; [links.push] appends. *)
Definition addLink (m : NodeMap) (ls : list Link) (c : ClaimRecord) : list Link :=
  let claimNodeId := ("claim-" ++ rec_primaryKey c)%string in
  let phNodeId := ("ph-" ++ prop_policyholderId (properties c))%string in
  if (JsMap.has claimNodeId m && JsMap.has phNodeId m)%bool
  then ls ++ [ {| source := claimNodeId;
                  target := phNodeId;
                  link_type := claim_policyholder |} ]
  else ls.

Definition createLinks (objs : list ClaimRecord) (m : NodeMap) : list Link :=
  fold_left (addLink m) (capped objs) [].

Definition emptyGraph : GraphData := {| nodes := []; links := [] |}.

(** [claims?.objects?.length], with [undefined] as [None]. *)
Definition objectsLength (claims : option ObjectSet) : option nat :=
  match claims with
  | Some os =>
      match objects os with
      | Some objs => Some (List.length objs)
      | None => None
      end
  | None => None
  end.

(** [!n] for [n : number | undefined] holding a length. *)
Definition notLength (n : option nat) : bool :=
  match n with
  | Some (S _) => false
  | _ => true
  end.

Definition buildGraphData (claims : option ObjectSet) : GraphData :=
  if notLength (objectsLength claims) then emptyGraph
  else
    match claims with
    | Some {| objects := Some objs |} =>
        let nodeMap := addClaims objs JsMap.empty in
        let nodeMap := addPolicyholders objs nodeMap in
        let _unused := agentIds nodeMap in
        let nodeMap := addAgents nodeMap in
        let links := createLinks objs nodeMap in
        {| nodes := JsMap.values nodeMap; links := links |}
    | _ => emptyGraph
    end.

(* ================================================================== *)
(** ** Node styling *)

(** [function nodeRadius(d)] *)
Definition nodeRadius (d : ClaimNode) : number :=
  match type d with
  | claim => (PrimFloat.sqrt (orZero (claimAmount d) / 5000) * 4 + 3)%float
  | policyholder => 8%float
  | agent => 12%float
  end.

(** [function nodeColor(d)] *)
Definition nodeColor (d : ClaimNode) : string :=
  match type d with
  | claim =>
      let score := orZero (anomalyScore d) in
      if gt score 70%float then "#ff4444"
      else if gt score 40%float then "#ffaa00"
      else "#88cc88"
  | policyholder =>
      match riskProfile d with
      | Some r => if String.eqb r "High Risk" then "#ff8800" else "#66bb6a"
      | None => "#66bb6a"
      end
  | agent => "#1976d2"
  end.

(* ================================================================== *)
(** ** Click dispatch *)

(** The payloads of the two widget events. *)
Record FlagPayload := { payload_claimId : string }.
Record ClusterPayload := { payload_agentId : option string }.

(** The host is a state the event callbacks act on.  A callback the host has
    not wired is [None] (falsy in the guards of [handleNodeClick]). *)
Section Events.
Variable Host : Type.

Record WidgetEvents := {
  flagSuspicious : option (FlagPayload -> Host -> Host);
  investigateCluster : option (ClusterPayload -> Host -> Host)
}.

(** [function handleNodeClick(d)] *)
Definition handleNodeClick (ev : WidgetEvents) (d : ClaimNode) (h : Host)
  : Host :=
  match type d, flagSuspicious ev with
  | claim, Some flag => flag {| payload_claimId := primaryKey d |} h
  | _, _ =>
      match type d, investigateCluster ev with
      | agent, Some investigate =>
          investigate {| payload_agentId := agentId d |} h
      | _, _ => h
      end
  end.
End Events.

(** A host that records the events it receives, in order. *)
Inductive HostCall :=
| FlagSuspicious (p : FlagPayload)
| InvestigateCluster (p : ClusterPayload).

Definition recordingEvents : WidgetEvents (list HostCall) :=
  {| flagSuspicious := Some (fun p log => log ++ [FlagSuspicious p]);
     investigateCluster := Some (fun p log => log ++ [InvestigateCluster p]) |}.

(* ================================================================== *)
(** ** The component: render result and simulation effect *)

(** What [FraudNetworkWidget] returns: the placeholder [div], or the [svg]
    surface with its tooltip. *)
Inductive View := Placeholder | GraphSurface.

Definition FraudNetworkWidget (claims : option ObjectSet) : View :=
  if notLength (objectsLength claims) then Placeholder else GraphSurface.

(** [d3.forceSimulation(nodes)] with its link force over [links]. *)
Record Simulation := {
  sim_nodes : list ClaimNode;
  sim_links : list Link
}.

(** The refs the effect reads: whether [svgRef.current] is set, and the
    simulation kept in [simulationRef.current]. *)
Record Refs := {
  svgRef : bool;
  simulationRef : option Simulation
}.

Inductive EffectOutcome :=
| EffectReturned                       (** the guard's early [return] *)
| EffectThrew                          (** a [TypeError] *)
| EffectSimulated (sim : Simulation) (refs : Refs).

(** The names the effect reads off the namespace [d3]. *)
Inductive D3Member :=
| D3select | D3zoom | D3drag
| D3forceSimulation | D3forceLink | D3forceManyBody | D3forceCenter
| D3forceCollide.

(** [import * as d3 from 'd3-force']: that module exports the simulation and
    the forces, and no [select], [zoom] or [drag].  A member it does not
    export is [undefined], and calling it is a [TypeError]. *)
Definition d3 (member : D3Member) : bool :=
  match member with
  | D3select | D3zoom | D3drag => false
  | D3forceSimulation | D3forceLink | D3forceManyBody | D3forceCenter
  | D3forceCollide => true
  end.

(** The [useEffect] body, as far as the simulation goes.  Its guard reads
    [claims?.objects.length]: an undefined [claims] short-circuits, an
    undefined [objects] under a defined [claims] is a [TypeError].  Past the
    guard the body calls [d3.select], then [buildGraphData], [d3.zoom],
    [d3.drag] and the members of the simulation, in that order. *)
Definition simulationEffect (refs : Refs) (claims : option ObjectSet)
  : EffectOutcome :=
  if negb (svgRef refs) then EffectReturned
  else
    match claims with
    | None => EffectReturned
    | Some os =>
        match objects os with
        | None => EffectThrew
        | Some objs =>
            if notLength (Some (List.length objs)) then EffectReturned
            else if negb (d3 D3select) then EffectThrew
            else
              let g := buildGraphData claims in
              if negb (d3 D3zoom) then EffectThrew
              else if negb (d3 D3drag) then EffectThrew
              else if negb (d3 D3forceSimulation && d3 D3forceLink
                            && d3 D3forceManyBody && d3 D3forceCenter
                            && d3 D3forceCollide)
              then EffectThrew
              else
                let simulation :=
                  {| sim_nodes := nodes g; sim_links := links g |} in
                EffectSimulated simulation
                  {| svgRef := svgRef refs; simulationRef := Some simulation |}
        end
    end.

Definition constructsSimulation (o : EffectOutcome) : bool :=
  match o with
  | EffectSimulated _ _ => true
  | _ => false
  end.

(** One render pass: the view is committed, [svgRef] follows it, then the
    effect runs. *)
Definition renderPass (prev : Refs) (claims : option ObjectSet)
  : View * EffectOutcome :=
  let view := FraudNetworkWidget claims in
  let refs := {| svgRef := match view with GraphSurface => true | Placeholder => false end;
                 simulationRef := simulationRef prev |} in
  (view, simulationEffect refs claims).

(* ================================================================== *)
(** ** Vocabulary of the properties *)

(** The records the host supplied, none when [claims] or [objects] is
    undefined. *)
Definition records (claims : option ObjectSet) : list ClaimRecord :=
  match claims with
  | Some {| objects := Some objs |} => objs
  | _ => []
  end.

Definition nodesOfType (t : NodeType) (g : GraphData) : list ClaimNode :=
  filter (fun n => NodeType_eqb (type n) t) (nodes g).

Definition primaryKeys (l : list ClaimRecord) : list string :=
  map rec_primaryKey l.

Definition policyholderIdsOf (l : list ClaimRecord) : list string :=
  map (fun c => prop_policyholderId (properties c)) l.

(** The policyholder node of [phId] whose display name echoes the id. *)
Definition echoPolicyholder (phId : string) : ClaimNode :=
  {| id := "ph-" ++ phId;
     type := policyholder;
     primaryKey := phId;
     claimId := None;
     claimAmount := None;
     anomalyScore := None;
     status := None;
     policyholderId := Some phId;
     policyholderName := Some phId;
     riskProfile := Some "High Risk";
     agentId := None;
     agentName := None |}.

(** The edge of a claim record to its policyholder. *)
Definition linkOf (c : ClaimRecord) : Link :=
  {| source := "claim-" ++ rec_primaryKey c;
     target := "ph-" ++ prop_policyholderId (properties c);
     link_type := claim_policyholder |}.

Definition keyed (e : string * ClaimNode) : Prop := id (snd e) = fst e.

Definition claimEntry (e : string * ClaimNode) : Prop :=
  type (snd e) = claim /\ exists pk, fst e = ("claim-" ++ pk)%string.

Definition policyholderEntry (phId : string) : string * ClaimNode :=
  (phNodeId phId, echoPolicyholder phId).

Definition agentEntry (a : string) : string * ClaimNode :=
  (agentNodeId a, agentNode a).

(** The node map at the end of step 3: the claim entries of step 1, then one
    policyholder entry per distinct id, then the three sample agents. *)
Definition finalNodeMap (objs : list ClaimRecord) : NodeMap :=
  addAgents (addPolicyholders objs (addClaims objs JsMap.empty)).

(** Sample inputs. *)
Definition sampleRecord (pk phId : string) : ClaimRecord :=
  {| rec_primaryKey := pk;
     properties := {| prop_claimId := Some pk;
                      prop_claimAmount := Some 5000%float;
                      prop_anomalyScore := Some 75%float;
                      prop_status := Some "Open";
                      prop_policyholderId := phId |} |}.

Definition claimsOf (objs : list ClaimRecord) : option ObjectSet :=
  Some {| objects := Some objs |}.

(** A claim node carrying the amount [a]. *)
Definition claimWithAmount (a : number) : ClaimNode :=
  claimNode
    {| rec_primaryKey := "C-1";
       properties := {| prop_claimId := Some "C-1";
                        prop_claimAmount := Some a;
                        prop_anomalyScore := None;
                        prop_status := None;
                        prop_policyholderId := "P-1" |} |}.

(** The number whose value is the integer [n] (exact below [2^53]). *)
Definition amountOfZ (n : Z) : number :=
  PrimFloat.of_uint63 (Uint63.of_Z n).

(** [check] holds at each of the [p] integers from [base] on. *)
Fixpoint rangeCheck (check : Z -> bool) (p : positive) (base : Z) : bool :=
  match p with
  | xH => check base
  | xO q => rangeCheck check q base && rangeCheck check q (base + Zpos q)
  | xI q =>
      check base && rangeCheck check q (base + 1)
      && rangeCheck check q (base + 1 + Zpos q)
  end.

(** The radius grows from the whole amount [n] to the next one. *)
Definition radiusGrowsAt (n : Z) : bool :=
  PrimFloat.ltb (nodeRadius (claimWithAmount (amountOfZ n)))
                (nodeRadius (claimWithAmount (amountOfZ (n + 1)))).

(* ================================================================== *)
(** ** Rounding to a double, on integers *)

(** The arithmetic of [number] is specified by [SpecFloat]: an operation
    computes an integer mantissa at an exponent, together with the location
    of the exact result between that mantissa and the next one (on it, below
    the half, on the half, above the half), and [binary_round_aux] shifts the
    mantissa to the exponent its size calls for and rounds to nearest, ties
    to even.  The definitions below say the same on integers, so that the
    order of two results can be read from the order of two integers. *)
Section Located.
Local Open Scope Z_scope.

(** The place of the rational [X / d] on the grid of half-integers: twice
    its integer part, plus one when it is not an integer. *)
Definition located (d X : Z) : Z :=
  2 * (X / d) + (if X mod d =? 0 then 0 else 1).

(** The place of [sqrt X / c] on the same grid. *)
Definition locatedSqrt (c X : Z) : Z :=
  2 * Z.sqrt (X / (c * c))
  + (if X =? c * c * (Z.sqrt (X / (c * c)) * Z.sqrt (X / (c * c))) then 0 else 1).

(** A mantissa with its round and sticky bits, as one integer. *)
Definition recordCode (r : shr_record) : Z :=
  4 * shr_m r + 2 * Z.b2z (shr_r r) + Z.b2z (shr_s r).

(** [round_nearest_even], on such an integer. *)
Definition rneCode (K : Z) : Z :=
  let m := K / 4 in
  let c := K mod 4 in
  if c <=? 1 then m
  else if c =? 2 then (if Z.even m then m else m + 1)
  else m + 1.

(** The number with the rounded mantissa [M] at the exponent [E]: a mantissa
    that rounding carried to [2^53] moves to the next exponent, and an
    exponent above 971 overflows to infinity. *)
Definition finishRound (M E : Z) : spec_float :=
  if M =? 0 then S754_zero false
  else if M =? 2 ^ 53 then
    if E + 1 <=? 971 then S754_finite false (2 ^ 52)%positive (E + 1)
    else S754_infinity false
  else if E <=? 971 then S754_finite false (Z.to_pos M) E
  else S754_infinity false.

(** [fexp] for binary64. *)
Definition fexp64 (e : Z) : Z := Z.max (e - 53) (-1074).

(** [binary_round_aux] on the integer [K] of a mantissa and its location, at
    the exponent [e]. *)
Definition roundLocated (K e : Z) : spec_float :=
  let E := fexp64 (Zdigits2 (K / 4) + e) in
  finishRound (rneCode (located (2 ^ (E - e + 1)) K)) E.

(** Zero of either sign, a positive finite number or plus infinity. *)
Definition nonnegative (z : spec_float) : bool :=
  match z with
  | S754_zero _ | S754_infinity false | S754_finite false _ _ => true
  | _ => false
  end.

(** The constants of [nodeRadius], and the smallest positive number. *)
Definition fiveThousand : spec_float :=
  S754_finite false 5497558138880000 (-40).
Definition four : spec_float := S754_finite false 4503599627370496 (-50).
Definition three : spec_float := S754_finite false 6755399441055744 (-51).
Definition tiny : spec_float := S754_finite false 1 (-1074).

End Located.

(* ================================================================== *)
(** ** Node labels *)

(** A string is kept as the bytes of its UTF-8 form, while [slice] counts
    UTF-16 code units.  [codeUnits] gives the code units of a string: one per
    character of one to three bytes, a surrogate pair per character of four
    bytes.  Bytes that are not UTF-8 stand for no JavaScript string; they are
    taken one by one. *)
Definition continuation (b : ascii) : N := (N_of_ascii b mod 64)%N.

Fixpoint codeUnits (s : string) : list N :=
  match s with
  | EmptyString => []
  | String b1 r1 =>
      let n1 := N_of_ascii b1 in
      if (n1 <? 128)%N then n1 :: codeUnits r1
      else if (n1 <? 192)%N then n1 :: codeUnits r1
      else if (n1 <? 224)%N then
        match r1 with
        | String b2 r2 =>
            ((n1 mod 32) * 64 + continuation b2)%N :: codeUnits r2
        | _ => n1 :: codeUnits r1
        end
      else if (n1 <? 240)%N then
        match r1 with
        | String b2 (String b3 r3) =>
            ((n1 mod 16) * 4096 + continuation b2 * 64 + continuation b3)%N
            :: codeUnits r3
        | _ => n1 :: codeUnits r1
        end
      else if (n1 <? 248)%N then
        match r1 with
        | String b2 (String b3 (String b4 r4)) =>
            let cp := ((n1 mod 8) * 262144 + continuation b2 * 4096
                       + continuation b3 * 64 + continuation b4)%N in
            let v := (cp - 65536)%N in
            (55296 + v / 1024)%N :: (56320 + v mod 1024)%N :: codeUnits r4
        | _ => n1 :: codeUnits r1
        end
      else n1 :: codeUnits r1
  end.

(** [s.slice(-4)] on the code units of [s]: a negative start counts from the
    end and stops at 0. *)
Definition sliceLast4 (units : list N) : list N :=
  skipn (List.length units - 4) units.

(** [s || ''] where [s : string | undefined]. *)
Definition orEmpty (s : option string) : string :=
  match s with
  | Some v => v
  | None => ""
  end.

(** The callback of [.text(...)] on the node labels; the result is the text
    in code units. *)
Definition nodeLabel (d : ClaimNode) : list N :=
  match type d with
  | agent => codeUnits (orEmpty (agentId d))
  | policyholder =>
      match policyholderId d with
      | Some phId => sliceLast4 (codeUnits phId)
      | None => []
      end
  | claim => []
  end.

(** The callbacks of [dx], [font-size] and [font-weight]. *)
Definition labelDx (d : ClaimNode) : number :=
  match type d with agent => 12%float | _ => 8%float end.

Definition labelFontSize (d : ClaimNode) : number :=
  match type d with agent => 12%float | _ => 10%float end.

Definition labelFontWeight (d : ClaimNode) : string :=
  match type d with agent => "bold" | _ => "normal" end.

(* ================================================================== *)
(** ** Drag handlers *)

(** The layout fields of a node the handlers read and write; [None] is a
    nullish value ([null] or [undefined]), which the simulation reads as
    "not pinned" on [fx] and [fy]. *)
Record Position := {
  pos_x : option number;
  pos_y : option number;
  pos_fx : option number;
  pos_fy : option number
}.

(** The fields of a D3 drag event the handlers read. *)
Record DragEvent := {
  active : number;
  event_x : number;
  event_y : number
}.

(** The part of a force simulation the widget drives: its alpha target and
    whether its timer runs. *)
Record Heat := {
  alphaTarget : number;
  running : bool
}.

(** [0.3] *)
Definition alphaHot : number := 0x1.3333333333333p-2%float.

(** [simulation.alphaTarget(a)] *)
Definition setAlphaTarget (a : number) (h : Heat) : Heat :=
  {| alphaTarget := a; running := running h |}.

(** [simulation.restart()] *)
Definition restart (h : Heat) : Heat :=
  {| alphaTarget := alphaTarget h; running := true |}.

(** [function dragstarted(event, d)] *)
Definition dragstarted (event : DragEvent) (s : Heat * Position)
  : Heat * Position :=
  let (simulation, d) := s in
  let simulation :=
    if falsy (active event) then restart (setAlphaTarget alphaHot simulation)
    else simulation in
  (simulation,
   {| pos_x := pos_x d; pos_y := pos_y d;
      pos_fx := pos_x d; pos_fy := pos_y d |}).

(** [function dragged(event, d)] *)
Definition dragged (event : DragEvent) (s : Heat * Position)
  : Heat * Position :=
  let (simulation, d) := s in
  (simulation,
   {| pos_x := pos_x d; pos_y := pos_y d;
      pos_fx := Some (event_x event); pos_fy := Some (event_y event) |}).

(** [function dragended(event, d)] *)
Definition dragended (event : DragEvent) (s : Heat * Position)
  : Heat * Position :=
  let (simulation, d) := s in
  let simulation :=
    if falsy (active event) then setAlphaTarget 0%float simulation
    else simulation in
  (simulation,
   {| pos_x := pos_x d; pos_y := pos_y d;
      pos_fx := None; pos_fy := None |}).

(** The handlers as D3 calls them during a gesture: [start], then [drag] for
    each move, then [end]. *)
Definition dragMoves (moves : list DragEvent) (s : Heat * Position)
  : Heat * Position :=
  fold_left (fun s e => dragged e s) moves s.

Definition dragGesture (start : DragEvent) (moves : list DragEvent)
  (finish : DragEvent) (s : Heat * Position) : Heat * Position :=
  dragended finish (dragMoves moves (dragstarted start s)).

(* ================================================================== *)
(** ** Tooltip *)

(** The tooltip [div] as far as the handlers write it. *)
Record TooltipElement := {
  innerHTML : string;
  style_opacity : string;
  style_left : string;
  style_top : string
}.

Record MouseEvent := {
  pageX : number;
  pageY : number
}.

(** A [string | undefined] inside a template literal. *)
Definition interpolate (s : option string) : string :=
  match s with
  | Some v => v
  | None => "undefined"
  end.

Definition newline : string := String (ascii_of_nat 10) EmptyString.

Section Tooltip.
(** Number formatting is the engine's: [n.toLocaleString()], [n.toFixed(1)]
    and the conversion of a number to a string. *)
Variable toLocaleString : number -> string.
Variable toFixed1 : number -> string.
Variable numberToString : number -> string.

Definition tooltipContent (d : ClaimNode) : string :=
  match type d with
  | claim =>
      newline ++ "          <strong>" ++ interpolate (claimId d)
      ++ "</strong><br/>" ++ newline
      ++ "          Amount: $"
      ++ interpolate (option_map toLocaleString (claimAmount d))
      ++ "<br/>" ++ newline
      ++ "          Anomaly: " ++ toFixed1 (orZero (anomalyScore d))
      ++ "<br/>" ++ newline
      ++ "          Status: " ++ interpolate (status d) ++ newline
      ++ "        "
  | policyholder =>
      "<strong>PH: " ++ interpolate (policyholderId d)
      ++ "</strong><br/>Risk: " ++ interpolate (riskProfile d)
  | agent => "<strong>" ++ interpolate (agentId d) ++ "</strong>"
  end.

(** [function showTooltip(event, d)] on [tooltipRef.current]. *)
Definition showTooltip (event : MouseEvent) (d : ClaimNode)
  (tooltipRef : option TooltipElement) : option TooltipElement :=
  match tooltipRef with
  | None => None
  | Some _ =>
      Some {| innerHTML := tooltipContent d;
              style_opacity := "1";
              style_left := numberToString (pageX event + 10)%float ++ "px";
              style_top := numberToString (pageY event - 10)%float ++ "px" |}
  end.

(** [function hideTooltip()] *)
Definition hideTooltip (tooltipRef : option TooltipElement)
  : option TooltipElement :=
  match tooltipRef with
  | None => None
  | Some el =>
      Some {| innerHTML := innerHTML el;
              style_opacity := "0";
              style_left := style_left el;
              style_top := style_top el |}
  end.

Inductive HoverEvent :=
| MouseOver (event : MouseEvent) (d : ClaimNode)
| MouseOut.

Definition hover (tooltipRef : option TooltipElement) (e : HoverEvent)
  : option TooltipElement :=
  match e with
  | MouseOver event d => showTooltip event d tooltipRef
  | MouseOut => hideTooltip tooltipRef
  end.
End Tooltip.

(* ================================================================== *)
(** ** The tile widget [FraudNetwork] *)

(** [c.properties.anomalyScore > 70]; an undefined score compares false. *)
Definition highRisk (c : ClaimRecord) : bool :=
  match prop_anomalyScore (properties c) with
  | Some a => gt a 70%float
  | None => false
  end.

(** One rendered tile: its React key, the two values of its text, and the
    payload its [onClick] passes to [flagSuspicious]. *)
Record Tile := {
  tile_key : string;
  tile_claimId : option string;
  tile_claimAmount : option number;
  tile_onClick : FlagPayload
}.

Definition tileOf (c : ClaimRecord) : Tile :=
  {| tile_key := rec_primaryKey c;
     tile_claimId := prop_claimId (properties c);
     tile_claimAmount := prop_claimAmount (properties c);
     tile_onClick := {| payload_claimId := rec_primaryKey c |} |}.

(** What [FraudNetwork] returns: the prompt to filter claims, or the panel
    with the high-risk count of its heading and its tiles. *)
Inductive TileView :=
| FilterPrompt
| NetworkPanel (highRiskCount : nat) (tiles : list Tile).

(** [function FraudNetwork()]; [None] is the [TypeError] of reading
    [.length] off an undefined [objects]. *)
Definition FraudNetwork (claims : option ObjectSet) : option TileView :=
  match claims with
  | None => Some FilterPrompt
  | Some os =>
      match objects os with
      | None => None
      | Some objs =>
          if notLength (Some (List.length objs)) then Some FilterPrompt
          else
            let highRiskClaims := filter highRisk objs in
            Some (NetworkPanel (List.length highRiskClaims)
                               (map tileOf (firstn 20 highRiskClaims)))
      end
  end.

(** The claim nodes of a graph that are drawn in the high colour. *)
Definition redClaimNodes (g : GraphData) : list ClaimNode :=
  filter (fun n => String.eqb (nodeColor n) "#ff4444") (nodesOfType claim g).

(** [n] sample records with pairwise distinct primaryKeys. *)
Definition numberedKey (i : nat) : string :=
  string_of_list_ascii (repeat "x"%char i).

Definition numberedRecords (n : nat) : list ClaimRecord :=
  map (fun i => sampleRecord (numberedKey i) "P-1") (seq 0 n).

(* ================================================================== *)
(** * Properties *)

(** ** Strings used as node identifiers *)

Lemma eqb_false_neq (a b : string) : a <> b -> String.eqb a b = false.
Proof. intro H. now apply String.eqb_neq. Qed.

Lemma prefix_inj (p a b : string) : (p ++ a = p ++ b)%string -> a = b.
Proof.
  induction p as [| ch p IH]; simpl; intro H; [exact H |].
  injection H as H. now apply IH.
Qed.

Lemma phNodeId_inj (a b : string) : phNodeId a = phNodeId b -> a = b.
Proof. apply prefix_inj. Qed.

Lemma claim_neq_ph (a b : string) : ("claim-" ++ a)%string <> phNodeId b.
Proof. discriminate. Qed.

Lemma claim_neq_agent (a b : string) : ("claim-" ++ a)%string <> agentNodeId b.
Proof. discriminate. Qed.

Lemma ph_neq_agent (a b : string) : phNodeId a <> agentNodeId b.
Proof. discriminate. Qed.

(** ** [JsSet] *)

Module JsSetFacts.
Import JsSet.

Lemma has_In (k : string) (s : t) : has k s = true <-> In k s.
Proof.
  induction s as [| k' r IH]; simpl.
  - split; [discriminate | tauto].
  - destruct (String.eqb_spec k' k) as [-> | Hne].
    + split; auto.
    + rewrite IH. split; [auto | intros [H | H]; [contradiction | exact H]].
Qed.

Lemma has_false (k : string) (s : t) : has k s = false <-> ~ In k s.
Proof.
  rewrite <- has_In. destruct (has k s); split; congruence.
Qed.

Lemma In_add (x k : string) (s : t) : In x (add k s) <-> x = k \/ In x s.
Proof.
  unfold add. destruct (has k s) eqn:E.
  - apply has_In in E. split; [auto | intros [-> | H]; assumption].
  - rewrite in_app_iff. simpl. intuition congruence.
Qed.

Lemma NoDup_add (k : string) (s : t) : NoDup s -> NoDup (add k s).
Proof.
  intro H. unfold add. destruct (has k s) eqn:E; [exact H |].
  apply has_false in E.
  apply NoDup_app; [exact H | repeat constructor; simpl; tauto |].
  intros x Hx [<- | []]. contradiction.
Qed.

Lemma In_fold_add (l : list string) (s : t) (x : string) :
  In x (fold_left (fun s k => add k s) l s) <-> In x s \/ In x l.
Proof.
  revert s. induction l as [| k l IH]; intro s; simpl.
  - tauto.
  - rewrite IH, In_add. intuition congruence.
Qed.

Lemma NoDup_fold_add (l : list string) (s : t) :
  NoDup s -> NoDup (fold_left (fun s k => add k s) l s).
Proof.
  revert s. induction l as [| k l IH]; intros s H; simpl; [exact H |].
  apply IH, NoDup_add, H.
Qed.

Lemma In_ofArray (l : list string) (x : string) : In x (ofArray l) <-> In x l.
Proof. unfold ofArray. rewrite In_fold_add. simpl. tauto. Qed.

Lemma NoDup_ofArray (l : list string) : NoDup (ofArray l).
Proof. apply NoDup_fold_add. constructor. Qed.

(** The size of [new Set(l)] is the number of distinct values of [l]. *)
Lemma length_ofArray (l : list string) :
  List.length (ofArray l) = List.length (nodup string_dec l).
Proof.
  apply Nat.le_antisymm; apply NoDup_incl_length.
  - apply NoDup_ofArray.
  - intros x Hx. apply nodup_In. now apply In_ofArray.
  - apply NoDup_nodup.
  - intros x Hx. apply In_ofArray. now apply nodup_In in Hx.
Qed.

End JsSetFacts.

(** ** [JsMap] *)

Module JsMapFacts.
Import JsMap.

Section WithValue.
Variable V : Type.
Implicit Types (m : t V) (k : string) (v : V).

Lemma has_keys k m : has k m = JsSet.has k (keys m).
Proof.
  induction m as [| [k' v'] r IH]; simpl; [reflexivity |].
  now rewrite IH.
Qed.

Lemma has_key_In k m : has k m = true <-> In k (keys m).
Proof. rewrite has_keys. apply JsSetFacts.has_In. Qed.

Lemma has_key_false k m : has k m = false <-> ~ In k (keys m).
Proof. rewrite has_keys. apply JsSetFacts.has_false. Qed.

Lemma has_app k m m' : has k (m ++ m') = (has k m || has k m')%bool.
Proof.
  induction m as [| [k' v'] r IH]; simpl; [reflexivity |].
  now destruct (String.eqb k' k).
Qed.

(** Setting a key the map lacks appends the entry. *)
Lemma set_new k v m : has k m = false -> set k v m = m ++ [(k, v)].
Proof.
  induction m as [| [k' v'] r IH]; simpl; intro H; [reflexivity |].
  destruct (String.eqb k' k); [discriminate |].
  now rewrite IH.
Qed.

(** The keys after [set] are the keys before, with [k] added as to a
    [Set]: an overwritten key keeps its place. *)
Lemma keys_set k v m : keys (set k v m) = JsSet.add k (keys m).
Proof.
  unfold JsSet.add.
  induction m as [| [k' v'] r IH]; simpl; [reflexivity |].
  destruct (String.eqb k' k) eqn:E; simpl; [reflexivity |].
  rewrite IH. now destruct (JsSet.has k (keys r)).
Qed.

Lemma Forall_set (P : string * V -> Prop) k v m :
  P (k, v) -> Forall P m -> Forall P (set k v m).
Proof.
  intros Hk. induction 1 as [| [k' v'] r Hx Hr IH]; simpl.
  - repeat constructor. exact Hk.
  - destruct (String.eqb_spec k' k) as [-> | Hne].
    + constructor; [exact Hk | exact Hr].
    + constructor; [exact Hx | exact IH].
Qed.

Lemma In_set_same k v m : In (k, v) (set k v m).
Proof.
  induction m as [| [k' v'] r IH]; simpl; [now left |].
  destruct (String.eqb_spec k' k) as [-> | Hne]; [now left | now right].
Qed.

Lemma In_set_other k v k' v' m :
  k <> k' -> In (k', v') m -> In (k', v') (set k v m).
Proof.
  intro Hne. induction m as [| [k0 v0] r IH]; simpl; [tauto |].
  intros [H | H].
  - injection H as -> ->.
    rewrite eqb_false_neq by congruence. now left.
  - destruct (String.eqb k0 k); right; [exact H | now apply IH].
Qed.

Lemma length_keys m : List.length (keys m) = List.length (values m).
Proof. unfold keys, values. now rewrite !length_map. Qed.

End WithValue.
End JsMapFacts.

(** ** The node map after each step of [buildGraphData] *)

Section Steps.
Import JsMap.

Lemma length_capped (objs : list ClaimRecord) :
  List.length (capped objs) = Nat.min (List.length objs) 200.
Proof. unfold capped. rewrite length_firstn. apply Nat.min_comm. Qed.

Lemma capped_incl (objs : list ClaimRecord) (c : ClaimRecord) :
  In c (capped objs) -> In c objs.
Proof.
  unfold capped. intro H.
  rewrite <- (firstn_skipn 200 objs). apply in_or_app. now left.
Qed.

(** *** Step 1 *)

Lemma keys_setClaims (l : list ClaimRecord) (m : NodeMap) :
  keys (fold_left setClaim l m)
  = fold_left (fun s k => JsSet.add k s) (map claimNodeId l) (keys m).
Proof.
  revert m. induction l as [| c l IH]; intro m; simpl; [reflexivity |].
  rewrite IH. unfold setClaim. now rewrite JsMapFacts.keys_set.
Qed.

Lemma Forall_setClaims (P : string * ClaimNode -> Prop)
  (l : list ClaimRecord) (m : NodeMap) :
  (forall c, P (claimNodeId c, claimNode c)) ->
  Forall P m -> Forall P (fold_left setClaim l m).
Proof.
  intro HP. revert m. induction l as [| c l IH]; intros m Hm; simpl.
  - exact Hm.
  - apply IH. apply JsMapFacts.Forall_set; [apply HP | exact Hm].
Qed.

Lemma keys_addClaims (objs : list ClaimRecord) :
  keys (addClaims objs empty) = JsSet.ofArray (map claimNodeId (capped objs)).
Proof. unfold addClaims. apply (keys_setClaims (capped objs) empty). Qed.

Lemma addClaims_claimEntry (objs : list ClaimRecord) :
  Forall claimEntry (addClaims objs empty).
Proof.
  apply (Forall_setClaims (P := claimEntry) (capped objs)); [| constructor].
  intro c. split; [reflexivity | now exists (rec_primaryKey c)].
Qed.

Lemma addClaims_keyed (objs : list ClaimRecord) :
  Forall keyed (addClaims objs empty).
Proof.
  apply (Forall_setClaims (P := keyed) (capped objs)); [| constructor].
  intro c. reflexivity.
Qed.

(** Last write wins: the node of a record survives the records set after it
    when none of them has its primary key. *)
Lemma fold_setClaim_last (c : ClaimRecord) (l : list ClaimRecord) :
  (forall c', In c' l -> rec_primaryKey c' <> rec_primaryKey c) ->
  forall m : NodeMap,
    In (claimNodeId c, claimNode c) m ->
    In (claimNodeId c, claimNode c) (fold_left setClaim l m).
Proof.
  induction l as [| c0 l IH]; intros Hl m Hm; simpl; [exact Hm |].
  apply IH; [intros c' Hc'; apply Hl; now right |].
  unfold setClaim. cbv zeta. apply JsMapFacts.In_set_other; [| exact Hm].
  intro H. apply (Hl c0 (or_introl eq_refl)).
  eapply prefix_inj, H.
Qed.

Lemma addClaims_last (objs l1 l2 : list ClaimRecord) (c : ClaimRecord) :
  capped objs = l1 ++ c :: l2 ->
  (forall c', In c' l2 -> rec_primaryKey c' <> rec_primaryKey c) ->
  In (claimNode c) (values (addClaims objs empty)).
Proof.
  intros Hsplit Hl2. unfold addClaims. rewrite Hsplit.
  rewrite fold_left_app. simpl.
  apply (in_map snd _ (claimNodeId c, claimNode c)).
  apply fold_setClaim_last; [exact Hl2 |].
  unfold setClaim at 1. cbv zeta. apply JsMapFacts.In_set_same.
Qed.

(** Prefixing is injective, so it commutes with building a [Set]. *)
Lemma has_map_prefix (p k : string) (s : JsSet.t) :
  JsSet.has (p ++ k)%string (map (String.append p) s) = JsSet.has k s.
Proof.
  induction s as [| k' r IH]; simpl; [reflexivity |].
  rewrite IH.
  destruct (String.eqb_spec k' k) as [-> | Hne].
  - now rewrite String.eqb_refl.
  - rewrite eqb_false_neq; [reflexivity |].
    intro H. apply Hne. eapply prefix_inj, H.
Qed.

Lemma fold_add_map_prefix (p : string) (l : list string) (s : JsSet.t) :
  fold_left (fun s k => JsSet.add k s) (map (String.append p) l)
            (map (String.append p) s)
  = map (String.append p) (fold_left (fun s k => JsSet.add k s) l s).
Proof.
  revert s. induction l as [| k l IH]; intro s; simpl; [reflexivity |].
  rewrite <- IH. f_equal.
  unfold JsSet.add. rewrite has_map_prefix.
  destruct (JsSet.has k s); [reflexivity |].
  now rewrite map_app.
Qed.

Lemma claimKeys_ofArray (l : list ClaimRecord) :
  JsSet.ofArray (map claimNodeId l)
  = map (String.append "claim-") (JsSet.ofArray (primaryKeys l)).
Proof.
  unfold JsSet.ofArray, primaryKeys.
  rewrite <- (fold_add_map_prefix "claim-" (map rec_primaryKey l) JsSet.empty).
  now rewrite map_map.
Qed.

(** The number of entries after step 1 is the number of distinct primary
    keys among the capped records. *)
Lemma length_addClaims (objs : list ClaimRecord) :
  List.length (values (addClaims objs empty))
  = List.length (nodup string_dec (primaryKeys (capped objs))).
Proof.
  rewrite <- JsMapFacts.length_keys, keys_addClaims, claimKeys_ofArray.
  rewrite length_map. apply JsSetFacts.length_ofArray.
Qed.

End Steps.

(** *** Step 2 *)

Lemma policyholderNode_echo (phId : string) (c : ClaimRecord) :
  prop_policyholderId (properties c) = phId ->
  policyholderNode phId c = echoPolicyholder phId.
Proof. intro H. unfold policyholderNode, echoPolicyholder. now rewrite H. Qed.

(** [find] succeeds on an id that occurs among the records, and the claim it
    returns carries that id. *)
Lemma find_policyholder (objs : list ClaimRecord) (phId : string) :
  In phId (policyholderIdsOf objs) ->
  exists c,
    find (fun c => String.eqb (prop_policyholderId (properties c)) phId) objs
    = Some c
    /\ prop_policyholderId (properties c) = phId.
Proof.
  intro Hin. apply in_map_iff in Hin. destruct Hin as [c0 [H0 Hc0]].
  destruct (find _ objs) as [c |] eqn:E.
  - exists c. split; [reflexivity |].
    apply find_some in E. now apply String.eqb_eq.
  - exfalso. apply (find_none _ _ E) in Hc0.
    rewrite H0, String.eqb_refl in Hc0. discriminate.
Qed.

Lemma addPolicyholder_new (objs : list ClaimRecord) (m : NodeMap)
  (phId : string) :
  In phId (policyholderIdsOf objs) ->
  ~ In (phNodeId phId) (JsMap.keys m) ->
  addPolicyholder objs m phId = m ++ [policyholderEntry phId].
Proof.
  intros Hin Hnew. unfold addPolicyholder.
  destruct (find_policyholder objs phId Hin) as [c [-> Hc]].
  apply JsMapFacts.has_key_false in Hnew. rewrite Hnew. simpl.
  rewrite JsMapFacts.set_new by exact Hnew.
  now rewrite policyholderNode_echo.
Qed.

Lemma fold_addPolicyholder (objs : list ClaimRecord) (l : list string) :
  forall m : NodeMap,
    NoDup l ->
    incl l (policyholderIdsOf objs) ->
    (forall x, In x l -> ~ In (phNodeId x) (JsMap.keys m)) ->
    fold_left (addPolicyholder objs) l m = m ++ map policyholderEntry l.
Proof.
  induction l as [| x l IH]; intros m Hnd Hincl Hnew; simpl.
  - now rewrite app_nil_r.
  - inversion Hnd as [| ? ? Hx Hl]; subst.
    rewrite addPolicyholder_new;
      [| apply Hincl; now left | apply Hnew; now left].
    rewrite IH.
    + now rewrite <- app_assoc.
    + exact Hl.
    + intros y Hy. apply Hincl. now right.
    + intros y Hy. unfold JsMap.keys. rewrite map_app, in_app_iff.
      intros [H | [H | []]].
      * apply (Hnew y); [now right | exact H].
      * simpl in H. apply phNodeId_inj in H. subst. contradiction.
Qed.

Lemma policyholderIds_incl (objs : list ClaimRecord) :
  incl (policyholderIds objs) (policyholderIdsOf objs).
Proof.
  intros x Hx. unfold policyholderIds in Hx.
  rewrite JsSetFacts.In_ofArray in Hx.
  apply in_map_iff in Hx. destruct Hx as [c [Hc Hin]].
  apply in_map_iff. exists c. split; [exact Hc | now apply capped_incl].
Qed.

Lemma claimEntry_not_ph (m : NodeMap) (x : string) :
  Forall claimEntry m -> ~ In (phNodeId x) (JsMap.keys m).
Proof.
  intros Hm Hin. apply in_map_iff in Hin. destruct Hin as [e [He Hin]].
  rewrite Forall_forall in Hm. destruct (Hm e Hin) as [_ [pk Hpk]].
  rewrite Hpk in He. exact (claim_neq_ph He).
Qed.

Lemma claimEntry_not_agent (m : NodeMap) (a : string) :
  Forall claimEntry m -> ~ In (agentNodeId a) (JsMap.keys m).
Proof.
  intros Hm Hin. apply in_map_iff in Hin. destruct Hin as [e [He Hin]].
  rewrite Forall_forall in Hm. destruct (Hm e Hin) as [_ [pk Hpk]].
  rewrite Hpk in He. exact (claim_neq_agent He).
Qed.

Lemma addPolicyholders_app (objs : list ClaimRecord) (m : NodeMap) :
  Forall claimEntry m ->
  addPolicyholders objs m = m ++ map policyholderEntry (policyholderIds objs).
Proof.
  intro Hm. unfold addPolicyholders. apply fold_addPolicyholder.
  - apply JsSetFacts.NoDup_ofArray.
  - apply policyholderIds_incl.
  - intros x _. now apply claimEntry_not_ph.
Qed.

(** *** Step 3 *)

Lemma fold_addAgent (l : list string) :
  forall m : NodeMap,
    NoDup l ->
    (forall a, In a l -> ~ In (agentNodeId a) (JsMap.keys m)) ->
    fold_left addAgent l m = m ++ map agentEntry l.
Proof.
  induction l as [| a l IH]; intros m Hnd Hnew; simpl.
  - now rewrite app_nil_r.
  - inversion Hnd as [| ? ? Ha Hl]; subst.
    assert (Hhas : JsMap.has (agentNodeId a) m = false).
    { apply JsMapFacts.has_key_false, Hnew. now left. }
    unfold addAgent at 2. rewrite Hhas. simpl.
    rewrite JsMapFacts.set_new by exact Hhas.
    rewrite IH.
    + now rewrite <- app_assoc.
    + exact Hl.
    + intros b Hb. unfold JsMap.keys. rewrite map_app, in_app_iff.
      intros [H | [H | []]].
      * apply (Hnew b); [now right | exact H].
      * simpl in H. apply prefix_inj in H. subst. contradiction.
Qed.

Lemma NoDup_sampleAgents : NoDup sampleAgents.
Proof.
  unfold sampleAgents.
  repeat constructor; simpl; intuition discriminate.
Qed.

Lemma addAgents_app (m1 : NodeMap) (phs : list string) :
  Forall claimEntry m1 ->
  addAgents (m1 ++ map policyholderEntry phs)
  = (m1 ++ map policyholderEntry phs) ++ map agentEntry sampleAgents.
Proof.
  intro Hm. unfold addAgents. apply fold_addAgent.
  - apply NoDup_sampleAgents.
  - intros a _. unfold JsMap.keys. rewrite map_app, in_app_iff.
    intros [H | H].
    + exact (claimEntry_not_agent a Hm H).
    + rewrite map_map in H. apply in_map_iff in H.
      destruct H as [x [Hx _]]. simpl in Hx. exact (ph_neq_agent Hx).
Qed.

Lemma finalNodeMap_eq (objs : list ClaimRecord) :
  finalNodeMap objs
  = (addClaims objs JsMap.empty
     ++ map policyholderEntry (policyholderIds objs))
    ++ map agentEntry sampleAgents.
Proof.
  unfold finalNodeMap.
  rewrite addPolicyholders_app by apply addClaims_claimEntry.
  apply addAgents_app, addClaims_claimEntry.
Qed.

(** *** Step 4 *)

Lemma addLink_present (m : NodeMap) (ls : list Link) (c : ClaimRecord) :
  JsMap.has (claimNodeId c) m = true ->
  JsMap.has (phNodeId (prop_policyholderId (properties c))) m = true ->
  addLink m ls c = ls ++ [linkOf c].
Proof.
  intros H1 H2. unfold addLink.
  change ("claim-" ++ rec_primaryKey c)%string with (claimNodeId c).
  change ("ph-" ++ prop_policyholderId (properties c))%string
    with (phNodeId (prop_policyholderId (properties c))).
  now rewrite H1, H2.
Qed.

Lemma addLink_cases (m : NodeMap) (ls : list Link) (c : ClaimRecord) :
  (JsMap.has (source (linkOf c)) m = true
   /\ JsMap.has (target (linkOf c)) m = true
   /\ addLink m ls c = ls ++ [linkOf c])
  \/ addLink m ls c = ls.
Proof.
  unfold addLink, linkOf; cbn [source target].
  destruct (JsMap.has ("claim-" ++ rec_primaryKey c)%string m);
    destruct (JsMap.has ("ph-" ++ prop_policyholderId (properties c))%string m);
    cbn [andb]; try (right; reflexivity); left; repeat split.
Qed.

(** Whatever holds of every edge whose two endpoints are keys of the map
    holds of every edge the loop emits. *)
Lemma fold_addLink_Forall (P : Link -> Prop) (m : NodeMap)
  (l : list ClaimRecord) :
  (forall c, JsMap.has (source (linkOf c)) m = true ->
             JsMap.has (target (linkOf c)) m = true -> P (linkOf c)) ->
  forall ls, Forall P ls -> Forall P (fold_left (addLink m) l ls).
Proof.
  intro HP. induction l as [| c l IH]; intros ls Hls; simpl; [exact Hls |].
  apply IH.
  destruct (addLink_cases m ls c) as [[H1 [H2 ->]] | ->]; [| exact Hls].
  apply Forall_app. split; [exact Hls |].
  repeat constructor. now apply HP.
Qed.

Lemma fold_addLink_all (m : NodeMap) (l : list ClaimRecord) :
  (forall c, In c l ->
     JsMap.has (claimNodeId c) m = true
     /\ JsMap.has (phNodeId (prop_policyholderId (properties c))) m = true) ->
  forall ls, fold_left (addLink m) l ls = ls ++ map linkOf l.
Proof.
  induction l as [| c l IH]; intros Hall ls; simpl.
  - now rewrite app_nil_r.
  - destruct (Hall c (or_introl eq_refl)) as [H1 H2].
    rewrite addLink_present by assumption.
    rewrite IH; [now rewrite <- app_assoc |].
    intros c' Hc'. apply Hall. now right.
Qed.

(** Both endpoints of every capped record are keys of the final map, so the
    guard of step 4 never fails. *)
Lemma finalNodeMap_has_claim (objs : list ClaimRecord) (c : ClaimRecord) :
  In c (capped objs) -> JsMap.has (claimNodeId c) (finalNodeMap objs) = true.
Proof.
  intro Hc. rewrite finalNodeMap_eq, !JsMapFacts.has_app.
  assert (H : JsMap.has (claimNodeId c) (addClaims objs JsMap.empty) = true).
  { apply JsMapFacts.has_key_In. rewrite keys_addClaims.
    apply JsSetFacts.In_ofArray. now apply in_map. }
  now rewrite H.
Qed.

Lemma finalNodeMap_has_ph (objs : list ClaimRecord) (c : ClaimRecord) :
  In c (capped objs) ->
  JsMap.has (phNodeId (prop_policyholderId (properties c))) (finalNodeMap objs)
  = true.
Proof.
  intro Hc. rewrite finalNodeMap_eq, !JsMapFacts.has_app.
  assert (H : JsMap.has (phNodeId (prop_policyholderId (properties c)))
                (map policyholderEntry (policyholderIds objs)) = true).
  { apply JsMapFacts.has_key_In. unfold JsMap.keys. rewrite map_map. simpl.
    apply (in_map phNodeId). unfold policyholderIds.
    apply JsSetFacts.In_ofArray.
    now apply (in_map (fun c => prop_policyholderId (properties c))). }
  rewrite H. now rewrite orb_true_r.
Qed.

Lemma createLinks_final (objs : list ClaimRecord) :
  createLinks objs (finalNodeMap objs) = map linkOf (capped objs).
Proof.
  unfold createLinks. rewrite fold_addLink_all; [reflexivity |].
  intros c Hc. split;
    [now apply finalNodeMap_has_claim | now apply finalNodeMap_has_ph].
Qed.

(** *** The graph as a whole *)

Lemma buildGraphData_records (claims : option ObjectSet) :
  buildGraphData claims
  = match records claims with
    | [] => emptyGraph
    | _ :: _ =>
        {| nodes := JsMap.values (finalNodeMap (records claims));
           links := createLinks (records claims)
                                (finalNodeMap (records claims)) |}
    end.
Proof.
  destruct claims as [[[[| c objs] |]] |]; reflexivity.
Qed.

Lemma finalNodeMap_keyed (objs : list ClaimRecord) :
  Forall keyed (finalNodeMap objs).
Proof.
  rewrite finalNodeMap_eq. rewrite !Forall_app. repeat split.
  - apply addClaims_keyed.
  - apply Forall_forall. intros e He. apply in_map_iff in He.
    destruct He as [x [<- _]]. reflexivity.
  - apply Forall_forall. intros e He. apply in_map_iff in He.
    destruct He as [x [<- _]]. reflexivity.
Qed.

Lemma keys_ids (m : NodeMap) :
  Forall keyed m -> JsMap.keys m = map id (JsMap.values m).
Proof.
  induction 1 as [| e m He Hm IH]; simpl; [reflexivity |].
  unfold keyed in He. now rewrite He, IH.
Qed.

Lemma values_finalNodeMap (objs : list ClaimRecord) :
  JsMap.values (finalNodeMap objs)
  = (JsMap.values (addClaims objs JsMap.empty)
     ++ map echoPolicyholder (policyholderIds objs))
    ++ map agentNode sampleAgents.
Proof.
  rewrite finalNodeMap_eq. unfold JsMap.values.
  now rewrite !map_app, !map_map.
Qed.

Lemma filter_all (A : Type) (f : A -> bool) (l : list A) :
  Forall (fun x => f x = true) l -> filter f l = l.
Proof.
  induction 1 as [| x l Hx Hl IH]; simpl; [reflexivity |].
  now rewrite Hx, IH.
Qed.

Lemma filter_none (A : Type) (f : A -> bool) (l : list A) :
  Forall (fun x => f x = false) l -> filter f l = [].
Proof.
  induction 1 as [| x l Hx Hl IH]; simpl; [reflexivity |].
  now rewrite Hx, IH.
Qed.

Lemma Forall_map_const (A B : Type) (P : B -> Prop) (f : A -> B) (l : list A) :
  (forall x, P (f x)) -> Forall P (map f l).
Proof. intro H. apply Forall_forall. intros y Hy.
  apply in_map_iff in Hy. destruct Hy as [x [<- _]]. apply H. Qed.

Lemma claims_typed (objs : list ClaimRecord) :
  Forall (fun n => type n = claim) (JsMap.values (addClaims objs JsMap.empty)).
Proof.
  unfold JsMap.values. apply Forall_map.
  eapply Forall_impl; [| apply addClaims_claimEntry].
  intros e [H _]. exact H.
Qed.

(** The nodes of each type, for a non-empty record list. *)
Lemma filter_type_final (t : NodeType) (objs : list ClaimRecord) :
  filter (fun n => NodeType_eqb (type n) t) (JsMap.values (finalNodeMap objs))
  = match t with
    | claim => JsMap.values (addClaims objs JsMap.empty)
    | policyholder => map echoPolicyholder (policyholderIds objs)
    | agent => map agentNode sampleAgents
    end.
Proof.
  rewrite values_finalNodeMap, !filter_app.
  pose proof (claims_typed objs) as Hc.
  destruct t.
  - rewrite filter_all, !filter_none.
    + now rewrite !app_nil_r.
    + now apply Forall_map_const.
    + now apply Forall_map_const.
    + eapply Forall_impl; [| exact Hc]. intros n Hn. simpl. now rewrite Hn.
  - rewrite (filter_none _ (l := JsMap.values _)), filter_all, filter_none.
    + now rewrite app_nil_r.
    + now apply Forall_map_const.
    + now apply Forall_map_const.
    + eapply Forall_impl; [| exact Hc]. intros n Hn. simpl. now rewrite Hn.
  - rewrite (filter_none _ (l := JsMap.values _)), filter_none, filter_all.
    + reflexivity.
    + now apply Forall_map_const.
    + now apply Forall_map_const.
    + eapply Forall_impl; [| exact Hc]. intros n Hn. simpl. now rewrite Hn.
Qed.

(** ** The nodes of each type *)

Lemma nodesOfType_records (t : NodeType) (claims : option ObjectSet) :
  nodesOfType t (buildGraphData claims)
  = match records claims with
    | [] => []
    | _ :: _ =>
        match t with
        | claim => JsMap.values (addClaims (records claims) JsMap.empty)
        | policyholder => map echoPolicyholder (policyholderIds (records claims))
        | agent => map agentNode sampleAgents
        end
    end.
Proof.
  unfold nodesOfType. rewrite buildGraphData_records.
  destruct (records claims) as [| c objs]; [reflexivity |].
  cbn [nodes]. apply filter_type_final.
Qed.

Lemma length_nodup_le (l : list string) :
  List.length (nodup string_dec l) <= List.length l.
Proof.
  apply NoDup_incl_length; [apply NoDup_nodup |].
  intros x Hx. now apply nodup_In in Hx.
Qed.

Lemma length_nodup_NoDup (l : list string) :
  List.length (nodup string_dec l) = List.length l <-> NoDup l.
Proof.
  split.
  - induction l as [| a l IH]; simpl; intro H; [constructor |].
    destruct (in_dec string_dec a l) as [Hin | Hin].
    + pose proof (length_nodup_le l). lia.
    + simpl in H. constructor; [exact Hin | apply IH; lia].
  - intro H. now rewrite nodup_fixed_point.
Qed.

(** C1 (amended).  The claim nodes are the entries of a map keyed by
    ["claim-" + primaryKey], so their number is the number of distinct
    primaryKey values among the first 200 records.  It equals
    [min (len records) 200] exactly when no two of those records share a
    primaryKey.  Node ids are pairwise distinct, and the last record written
    under a key is the one whose node is kept. *)
Theorem claim_nodes_count (claims : option ObjectSet) :
  let g := buildGraphData claims in
  let pks := primaryKeys (capped (records claims)) in
  List.length (nodesOfType claim g) = List.length (nodup string_dec pks)
  /\ (List.length (nodesOfType claim g)
      = Nat.min (List.length (records claims)) 200
      <-> NoDup pks)
  /\ NoDup (map id (nodesOfType claim g))
  /\ (forall l1 c l2,
        capped (records claims) = l1 ++ c :: l2 ->
        (forall c', In c' l2 -> rec_primaryKey c' <> rec_primaryKey c) ->
        In (claimNode c) (nodesOfType claim g)).
Proof.
  intros g pks.
  assert (Hlen : List.length (nodesOfType claim g)
                 = List.length (nodup string_dec pks)).
  { unfold g, pks. rewrite nodesOfType_records.
    destruct (records claims) as [| c objs] eqn:E; [reflexivity |].
    apply length_addClaims. }
  split; [exact Hlen |]. split; [| split].
  - rewrite Hlen, <- length_capped.
    replace (List.length (capped (records claims))) with (List.length pks)
      by (unfold pks, primaryKeys; apply length_map).
    apply length_nodup_NoDup.
  - unfold g. rewrite nodesOfType_records.
    destruct (records claims) as [| c objs]; [constructor |].
    rewrite <- keys_ids by apply addClaims_keyed.
    rewrite keys_addClaims. apply JsSetFacts.NoDup_ofArray.
  - intros l1 c l2 Hsplit Hl2. unfold g. rewrite nodesOfType_records.
    destruct (records claims) as [| c0 objs] eqn:E.
    + destruct l1; discriminate Hsplit.
    + eapply addClaims_last; eassumption.
Qed.

(** Two records with distinct keys give two claim nodes. *)
Lemma claim_nodes_count_witness :
  NoDup (primaryKeys (capped [sampleRecord "C-1" "P-1"; sampleRecord "C-2" "P-1"]))
  /\ List.length
       (nodesOfType claim
          (buildGraphData
             (claimsOf [sampleRecord "C-1" "P-1"; sampleRecord "C-2" "P-1"])))
     = Nat.min 2 200.
Proof.
  assert (H : NoDup (primaryKeys
                       (capped [sampleRecord "C-1" "P-1";
                                sampleRecord "C-2" "P-1"]))).
  { repeat constructor; simpl; intuition discriminate. }
  split; [exact H |].
  destruct (claim_nodes_count
              (claimsOf [sampleRecord "C-1" "P-1"; sampleRecord "C-2" "P-1"]))
    as [_ [Hmin _]].
  exact (proj2 Hmin H).
Defined.

(** C1 as stated fails: two records sharing the primaryKey ["C-1"] collapse
    into one claim node, while [min (len records) 200] is 2. *)
Lemma claim_nodes_count_shared_key :
  let claims := claimsOf [sampleRecord "C-1" "P-1"; sampleRecord "C-1" "P-2"] in
  List.length (nodesOfType claim (buildGraphData claims)) = 1
  /\ List.length (nodesOfType claim (buildGraphData claims))
     <> Nat.min (List.length (records claims)) 200.
Proof. split; [reflexivity | discriminate]. Qed.

(** C2 (amended).  For a non-empty record list the agent nodes are exactly
    the three nodes of [AGENT_0], [AGENT_1], [AGENT_2], whatever the records
    are; for an empty or absent list the builder returns no node at all, so
    no agent node either. *)
Theorem agent_nodes (claims : option ObjectSet) :
  let g := buildGraphData claims in
  nodesOfType agent g
  = match records claims with
    | [] => []
    | _ :: _ => [agentNode "AGENT_0"; agentNode "AGENT_1"; agentNode "AGENT_2"]
    end
  /\ map agentId (nodesOfType agent g)
     = match records claims with
       | [] => []
       | _ :: _ => [Some "AGENT_0"; Some "AGENT_1"; Some "AGENT_2"]
       end.
Proof.
  intro g. unfold g. rewrite nodesOfType_records.
  destruct (records claims); split; reflexivity.
Qed.

(** C2 as stated fails on the empty list: no agent node is produced. *)
Lemma agent_nodes_empty_input :
  List.length (nodesOfType agent (buildGraphData (claimsOf []))) = 0
  /\ List.length (nodesOfType agent (buildGraphData (claimsOf []))) <> 3.
Proof. split; [reflexivity | discriminate]. Qed.

Lemma policyholder_nodes_capped (claims : option ObjectSet) :
  let g := buildGraphData claims in
  let ids := policyholderIdsOf (capped (records claims)) in
  List.length (nodesOfType policyholder g)
  = List.length (nodup string_dec ids)
  /\ nodesOfType policyholder g = map echoPolicyholder (JsSet.ofArray ids)
  /\ NoDup (map id (nodesOfType policyholder g))
  /\ Forall (fun n => exists phId,
                 In phId ids
                 /\ id n = ("ph-" ++ phId)%string
                 /\ policyholderName n = Some phId
                 /\ riskProfile n = Some "High Risk")
            (nodesOfType policyholder g).
Proof.
  intros g ids.
  assert (Heq : nodesOfType policyholder g
                = map echoPolicyholder (JsSet.ofArray ids)).
  { unfold g, ids. rewrite nodesOfType_records.
    destruct (records claims) as [| c objs]; reflexivity. }
  rewrite Heq. repeat split.
  - rewrite length_map. apply JsSetFacts.length_ofArray.
  - rewrite map_map. cbn [id echoPolicyholder].
    apply Injective_map_NoDup.
    + intros a b H. eapply prefix_inj, H.
    + apply JsSetFacts.NoDup_ofArray.
  - apply Forall_forall. intros n Hn. apply in_map_iff in Hn.
    destruct Hn as [phId [<- Hin]]. exists phId.
    rewrite JsSetFacts.In_ofArray in Hin. repeat split. exact Hin.
Qed.

(** C8.  The policyholder nodes are one per distinct policyholderId among the
    first 200 records ([firstn 200]), in order of first occurrence: their
    number is the number of distinct ids, every such id has its node, node
    ids are pairwise distinct, and each node is keyed
    ["ph-" + policyholderId], named after the id and labelled
    ["High Risk"]. *)
Theorem policyholder_nodes (claims : option ObjectSet) :
  let g := buildGraphData claims in
  let ids :=
    map (fun c => prop_policyholderId (properties c))
        (firstn 200 (records claims)) in
  List.length (nodesOfType policyholder g)
  = List.length (nodup string_dec ids)
  /\ Forall (fun phId =>
               exists n,
                 In n (nodesOfType policyholder g)
                 /\ type n = policyholder
                 /\ id n = ("ph-" ++ phId)%string
                 /\ policyholderName n = Some phId
                 /\ riskProfile n = Some "High Risk")
            ids
  /\ Forall (fun n => exists phId,
                 In phId ids
                 /\ id n = ("ph-" ++ phId)%string
                 /\ policyholderName n = Some phId
                 /\ riskProfile n = Some "High Risk")
            (nodesOfType policyholder g)
  /\ NoDup (map id (nodesOfType policyholder g))
  /\ nodesOfType policyholder g = map echoPolicyholder (JsSet.ofArray ids).
Proof.
  intros g ids.
  destruct (policyholder_nodes_capped claims) as [Hlen [Heq [Hnd Hall]]].
  fold g in Hlen, Heq, Hnd, Hall.
  change (policyholderIdsOf (capped (records claims))) with ids
    in Hlen, Heq, Hall.
  split; [exact Hlen |]. split; [| split; [exact Hall |
                                           split; [exact Hnd | exact Heq]]].
  apply Forall_forall. intros phId Hin.
  exists (echoPolicyholder phId). rewrite Heq. split.
  - apply in_map. now apply JsSetFacts.In_ofArray.
  - repeat split.
Qed.

(** Of 201 records the last one's policyholder gets no node; three records
    over two policyholders give two nodes, in order of first occurrence. *)
Lemma policyholder_nodes_witness :
  nodesOfType policyholder
    (buildGraphData
       (claimsOf (repeat (sampleRecord "C-1" "P-1") 200
                  ++ [sampleRecord "C-2" "P-2"])))
  = [echoPolicyholder "P-1"]
  /\ nodesOfType policyholder
       (buildGraphData
          (claimsOf [sampleRecord "C-1" "P-2"; sampleRecord "C-2" "P-1";
                     sampleRecord "C-3" "P-2"]))
     = [echoPolicyholder "P-2"; echoPolicyholder "P-1"].
Proof.
  destruct (policyholder_nodes
              (claimsOf (repeat (sampleRecord "C-1" "P-1") 200
                         ++ [sampleRecord "C-2" "P-2"])))
    as [_ [_ [_ [_ H1]]]].
  destruct (policyholder_nodes
              (claimsOf [sampleRecord "C-1" "P-2"; sampleRecord "C-2" "P-1";
                         sampleRecord "C-3" "P-2"]))
    as [_ [_ [_ [_ H2]]]].
  rewrite H1, H2. split; reflexivity.
Defined.

(** ** The edges *)

Lemma links_records (claims : option ObjectSet) :
  links (buildGraphData claims)
  = match records claims with
    | [] => []
    | _ :: _ => createLinks (records claims) (finalNodeMap (records claims))
    end.
Proof.
  rewrite buildGraphData_records. now destruct (records claims).
Qed.

(** Whatever holds of every edge between two keys of the final node map holds
    of every edge of the graph. *)
Lemma links_Forall (P : Link -> Prop) (claims : option ObjectSet) :
  (forall c,
     JsMap.has (source (linkOf c)) (finalNodeMap (records claims)) = true ->
     JsMap.has (target (linkOf c)) (finalNodeMap (records claims)) = true ->
     P (linkOf c)) ->
  Forall P (links (buildGraphData claims)).
Proof.
  intro HP. rewrite links_records.
  destruct (records claims) as [| c objs] eqn:E; [constructor |].
  unfold createLinks. apply fold_addLink_Forall; [exact HP | constructor].
Qed.

Lemma has_final_node (claims : option ObjectSet) (k : string) :
  JsMap.has k (finalNodeMap (records claims)) = true ->
  links (buildGraphData claims) <> [] ->
  In k (map id (nodes (buildGraphData claims))).
Proof.
  intros Hk Hne. rewrite links_records in Hne.
  rewrite buildGraphData_records.
  destruct (records claims) as [| c objs] eqn:E; [contradiction |].
  cbn [nodes]. rewrite <- keys_ids by apply finalNodeMap_keyed.
  now apply JsMapFacts.has_key_In.
Qed.

(** C4.  Both endpoints of every edge are identifiers of nodes of the same
    graph; and the loop body that emits edges leaves the edge list unchanged
    when either endpoint is not a key of the node map. *)
Theorem link_endpoints_exist (claims : option ObjectSet) :
  let g := buildGraphData claims in
  Forall (fun l => In (source l) (map id (nodes g))
                   /\ In (target l) (map id (nodes g)))
         (links g)
  /\ forall (m : NodeMap) (ls : list Link) (c : ClaimRecord),
       addLink m ls c
       = if (JsMap.has (source (linkOf c)) m
             && JsMap.has (target (linkOf c)) m)%bool
         then ls ++ [linkOf c]
         else ls.
Proof.
  intro g. split; [| reflexivity].
  destruct (links g) as [| l0 ls0] eqn:El; [constructor |].
  rewrite <- El. unfold g. apply links_Forall.
  intros c H1 H2.
  assert (Hne : links (buildGraphData claims) <> []).
  { fold g. rewrite El. discriminate. }
  split; now apply has_final_node.
Qed.

(** C5.  Every edge has kind [claim_policyholder]; its source is a
    ["claim-"] identifier and its target a ["ph-"] identifier, so no edge
    touches an agent node. *)
Theorem links_claim_policyholder_only (claims : option ObjectSet) :
  let g := buildGraphData claims in
  Forall (fun l => link_type l = claim_policyholder) (links g)
  /\ Forall (fun l => link_type l <> policyholder_agent) (links g)
  /\ Forall (fun l =>
               Forall (fun n => source l <> id n /\ target l <> id n)
                      (nodesOfType agent g))
            (links g).
Proof.
  intro g. unfold g. repeat split.
  - apply links_Forall. reflexivity.
  - apply links_Forall. discriminate.
  - apply links_Forall. intros c _ _.
    rewrite nodesOfType_records.
    destruct (records claims); [constructor |].
    apply Forall_map_const. intro a. split; discriminate.
Qed.

(** C10.  The guard of the link loop never fails: the edges are the edges of
    the first 200 records, one per record and in order, so there are
    [min (len records) 200] of them; and each such record's policyholder node
    is in the graph. *)
Theorem links_one_per_record (claims : option ObjectSet) :
  let g := buildGraphData claims in
  let rs := capped (records claims) in
  links g = map linkOf rs
  /\ List.length (links g) = Nat.min (List.length (records claims)) 200
  /\ Forall (fun c =>
               In (phNodeId (prop_policyholderId (properties c)))
                  (map id (nodesOfType policyholder g)))
            rs
  /\ Forall (fun l => link_type l = claim_policyholder) (links g).
Proof.
  intros g rs.
  assert (Hl : links g = map linkOf rs).
  { unfold g, rs. rewrite links_records.
    destruct (records claims) as [| c objs]; [reflexivity |].
    apply createLinks_final. }
  rewrite Hl. repeat split.
  - rewrite length_map. apply length_capped.
  - unfold g, rs. rewrite nodesOfType_records.
    destruct (records claims) as [| c0 objs]; [constructor |].
    apply Forall_forall. intros c Hc.
    rewrite map_map. cbn [id echoPolicyholder].
    apply (in_map phNodeId). unfold policyholderIds.
    rewrite JsSetFacts.In_ofArray.
    now apply (in_map (fun c => prop_policyholderId (properties c))).
  - now apply Forall_map_const.
Qed.

(** ** Empty input *)

(** C3.  With no claim record (an undefined [claims], an undefined [objects]
    or an empty array) the builder returns no node and no edge, the component
    returns the placeholder, and the effect constructs no simulation: in a
    render pass it takes its early return. *)
Theorem empty_claims_placeholder (claims : option ObjectSet) :
  records claims = [] ->
  buildGraphData claims = {| nodes := []; links := [] |}
  /\ FraudNetworkWidget claims = Placeholder
  /\ (forall refs : Refs,
        constructsSimulation (simulationEffect refs claims) = false)
  /\ (forall prev : Refs,
        renderPass prev claims = (Placeholder, EffectReturned)).
Proof.
  intro H.
  destruct claims as [[[[| c objs] |]] |]; try discriminate H;
    repeat split; try reflexivity;
    intros [[] sim]; reflexivity.
Qed.

Lemma empty_claims_placeholder_witness :
  records (claimsOf []) = []
  /\ buildGraphData (claimsOf []) = {| nodes := []; links := [] |}
  /\ FraudNetworkWidget (claimsOf []) = Placeholder
  /\ (forall refs : Refs,
        constructsSimulation (simulationEffect refs (claimsOf [])) = false)
  /\ (forall prev : Refs,
        renderPass prev (claimsOf []) = (Placeholder, EffectReturned)).
Proof.
  split; [reflexivity |].
  exact (empty_claims_placeholder (claimsOf []) eq_refl).
Defined.

(** ** Numbers: truthiness against a positive threshold *)

Lemma SFeqb_zero (x : spec_float) (s0 : bool) :
  SFeqb x (S754_zero s0) = true -> exists s, x = S754_zero s.
Proof.
  destruct x as [s | s | | s m e]; unfold SFeqb; simpl.
  - intros _. now exists s.
  - destruct s; discriminate.
  - discriminate.
  - destruct s; discriminate.
Qed.

Lemma SFeqb_irrefl_nan (x : spec_float) : SFeqb x x = false -> x = S754_nan.
Proof.
  destruct x as [s | s | | s m e]; unfold SFeqb; simpl.
  - discriminate.
  - destruct s; discriminate.
  - reflexivity.
  - rewrite Z.compare_refl.
    change (PosDef.Pos.compare_cont Eq m m) with (Pos.compare m m).
    rewrite Pos.compare_refl. destruct s; discriminate.
Qed.

(** A falsy number is not above a positive finite threshold, and neither is
    the [0] that replaces it: [(x || 0) > t] is [x > t]. *)
Lemma gt_orZero (t a : number) (m : positive) (e : Z) :
  Prim2SF t = S754_finite false m e ->
  gt (orZero (Some a)) t = PrimFloat.ltb t a.
Proof.
  intro Ht. unfold gt, orZero, falsy, PrimFloat.is_nan.
  assert (H0 : PrimFloat.ltb t 0 = false).
  { rewrite ltb_spec, Ht. reflexivity. }
  destruct (PrimFloat.eqb a 0) eqn:E0; simpl.
  - rewrite H0. rewrite eqb_spec in E0.
    change (Prim2SF 0) with (S754_zero false) in E0.
    apply SFeqb_zero in E0. destruct E0 as [s Hs].
    rewrite ltb_spec, Ht, Hs. reflexivity.
  - destruct (PrimFloat.eqb a a) eqn:Ea; simpl; [reflexivity |].
    rewrite H0. rewrite eqb_spec in Ea. apply SFeqb_irrefl_nan in Ea.
    rewrite ltb_spec, Ht, Ea. reflexivity.
Qed.

Lemma gt_orZero_70 (a : number) :
  gt (orZero (Some a)) 70%float = PrimFloat.ltb 70 a.
Proof. eapply gt_orZero. reflexivity. Qed.

Lemma gt_orZero_40 (a : number) :
  gt (orZero (Some a)) 40%float = PrimFloat.ltb 40 a.
Proof. eapply gt_orZero. reflexivity. Qed.

(** ** Node colours *)

(** C6.  For a claim node the colour is decided by two strict comparisons of
    the anomaly score: above 70 the high colour [#ff4444], otherwise above 40
    the medium colour [#ffaa00], otherwise the low colour [#88cc88] (also for
    a missing score).  Hence 75 is high, 50 medium, 10 low, and the
    boundaries 70 and 40 fall in the lower bucket: 70 is medium, 40 is low. *)
Theorem claim_color_thresholds (d : ClaimNode) :
  type d = claim ->
  (forall a : number,
     anomalyScore d = Some a ->
     nodeColor d
     = if PrimFloat.ltb 70 a then "#ff4444"
       else if PrimFloat.ltb 40 a then "#ffaa00"
       else "#88cc88")
  /\ (anomalyScore d = None -> nodeColor d = "#88cc88")
  /\ (anomalyScore d = Some 75%float -> nodeColor d = "#ff4444")
  /\ (anomalyScore d = Some 50%float -> nodeColor d = "#ffaa00")
  /\ (anomalyScore d = Some 10%float -> nodeColor d = "#88cc88")
  /\ (anomalyScore d = Some 70%float -> nodeColor d = "#ffaa00")
  /\ (anomalyScore d = Some 40%float -> nodeColor d = "#88cc88").
Proof.
  intro Ht.
  assert (Hgen : forall a : number,
             anomalyScore d = Some a ->
             nodeColor d
             = if PrimFloat.ltb 70 a then "#ff4444"
               else if PrimFloat.ltb 40 a then "#ffaa00"
               else "#88cc88").
  { intros a Ha. unfold nodeColor. rewrite Ht, Ha. cbv zeta.
    now rewrite gt_orZero_70, gt_orZero_40. }
  split; [exact Hgen |].
  split; [intro Hn; unfold nodeColor; now rewrite Ht, Hn |].
  repeat split; intro Ha; rewrite (Hgen _ Ha); reflexivity.
Qed.

Lemma claim_color_thresholds_witness :
  type (claimNode (sampleRecord "C-1" "P-1")) = claim
  /\ nodeColor (claimNode (sampleRecord "C-1" "P-1")) = "#ff4444".
Proof.
  split; [reflexivity |].
  destruct (claim_color_thresholds (claimNode (sampleRecord "C-1" "P-1")) eq_refl)
    as [_ [_ [H75 _]]].
  apply H75. reflexivity.
Defined.

(** ** Click dispatch *)

(** C7.  A click on a claim node calls [flagSuspicious] once with the node's
    primaryKey as [claimId]; a click on an agent node calls
    [investigateCluster] once with the node's [agentId]; a click on a
    policyholder node calls nothing; and where the callback for the node's
    type is not wired the host is left as it was.  On the recording host the
    log grows by exactly the one call, or not at all. *)
Theorem handleNodeClick_dispatch (Host : Type) (ev : WidgetEvents Host)
  (d : ClaimNode) (h : Host) :
  handleNodeClick ev d h
  = match type d with
    | claim =>
        match flagSuspicious ev with
        | Some flag => flag {| payload_claimId := primaryKey d |} h
        | None => h
        end
    | agent =>
        match investigateCluster ev with
        | Some investigate => investigate {| payload_agentId := agentId d |} h
        | None => h
        end
    | policyholder => h
    end
  /\ forall log : list HostCall,
       handleNodeClick recordingEvents d log
       = log ++ match type d with
                | claim => [FlagSuspicious {| payload_claimId := primaryKey d |}]
                | agent => [InvestigateCluster {| payload_agentId := agentId d |}]
                | policyholder => []
                end.
Proof.
  unfold handleNodeClick. split.
  - destruct (type d), (flagSuspicious ev), (investigateCluster ev); reflexivity.
  - intro log. destruct (type d); simpl; try reflexivity.
    now rewrite app_nil_r.
Qed.

(** ** Node radii *)

(** Transitivity of the order of [spec_float], by cases on the three
    numbers and on the comparisons of their exponents and mantissas. *)
Ltac order_by_cases x y z :=
  unfold SFleb, SFltb;
  destruct x as [[] | [] | | [] ?m1 ?e1], y as [[] | [] | | [] ?m2 ?e2],
           z as [[] | [] | | [] ?m3 ?e3];
  simpl; try discriminate; try reflexivity;
  change (PosDef.Pos.compare_cont Eq) with Pos.compare;
  repeat match goal with
         | |- context [Z.compare ?a ?b] => destruct (Z.compare_spec a b)
         end;
  try discriminate; try reflexivity; try lia; subst;
  repeat match goal with
         | |- context [Pos.compare ?a ?b] => destruct (Pos.compare_spec a b)
         end;
  simpl; try discriminate; try reflexivity; lia.

(** [<] on numbers is transitive. *)
Lemma SFltb_trans (x y z : spec_float) :
  SFltb x y = true -> SFltb y z = true -> SFltb x z = true.
Proof.
  order_by_cases x y z.
Qed.

Lemma ltb_trans (a b c : number) :
  PrimFloat.ltb a b = true -> PrimFloat.ltb b c = true ->
  PrimFloat.ltb a c = true.
Proof. rewrite !ltb_spec. apply SFltb_trans. Qed.

Lemma rangeCheck_spec (check : Z -> bool) (p : positive) :
  forall base : Z,
    rangeCheck check p base = true ->
    forall k : Z, (base <= k < base + Zpos p)%Z -> check k = true.
Proof.
  induction p as [q IH | q IH |]; intros base H k Hk; simpl in H.
  - apply andb_prop in H. destruct H as [H H2].
    apply andb_prop in H. destruct H as [H0 H1].
    destruct (Z.eq_dec k base) as [-> | Hne]; [exact H0 |].
    destruct (Z_lt_le_dec k (base + 1 + Zpos q)).
    + apply (IH _ H1). lia.
    + apply (IH _ H2). lia.
  - apply andb_prop in H. destruct H as [H1 H2].
    destruct (Z_lt_le_dec k (base + Zpos q)).
    + apply (IH _ H1). lia.
    + apply (IH _ H2). lia.
  - replace k with base by lia. exact H.
Qed.

Lemma radiusGrowsAt_million :
  rangeCheck radiusGrowsAt 1000000 0 = true.
Proof. vm_compute. reflexivity. Qed.

(** Over the whole amounts from 0 to 1,000,000 the radius is strictly
    increasing. *)
Lemma radius_whole_amounts (n m : Z) :
  (0 <= n < m)%Z -> (m <= 1000000)%Z ->
  PrimFloat.ltb (nodeRadius (claimWithAmount (amountOfZ n)))
                (nodeRadius (claimWithAmount (amountOfZ m))) = true.
Proof.
  intros Hnm Hm.
  assert (Hstep : forall k, (0 <= k < 1000000)%Z -> radiusGrowsAt k = true).
  { intros k Hk. apply (@rangeCheck_spec radiusGrowsAt 1000000 0 radiusGrowsAt_million).
    lia. }
  replace m with (n + 1 + Z.of_nat (Z.to_nat (m - n - 1)))%Z by lia.
  assert (Hb : (n + 1 + Z.of_nat (Z.to_nat (m - n - 1)) <= 1000000)%Z) by lia.
  revert Hb. generalize (Z.to_nat (m - n - 1)) as j.
  induction j as [| j IH]; intro Hb.
  - rewrite Z.add_0_r. apply (Hstep n). lia.
  - eapply ltb_trans; [apply IH; lia |].
    replace (n + 1 + Z.of_nat (S j))%Z with (n + 1 + Z.of_nat j + 1)%Z by lia.
    apply (Hstep (n + 1 + Z.of_nat j)%Z). lia.
Qed.

(** The rest of this part shows that the radius never decreases when the
    amount grows, over all the non-negative doubles.  Each of [/], [sqrt],
    [*] and [+] is specified as [binary_round_aux] of an exact integer
    result; that rounding is [roundLocated], which is monotone; and the exact
    results of two ordered arguments are ordered. *)

Unset Implicit Arguments.

Section LocatedFacts.
Local Open Scope Z_scope.

(** *** Located values *)

(** [located d] is monotone, composes with itself the way successive right
    shifts do, and ignores a common factor. *)
Lemma located_mono (d X Y : Z) :
  0 < d -> X <= Y -> located d X <= located d Y.
Proof.
  intros Hd Hxy. unfold located.
  pose proof (Z.div_le_mono X Y d Hd Hxy) as Hq.
  pose proof (Z.div_mod X d ltac:(lia)) as HX.
  pose proof (Z.div_mod Y d ltac:(lia)) as HY.
  pose proof (Z.mod_pos_bound X d Hd) as BX.
  pose proof (Z.mod_pos_bound Y d Hd) as BY.
  destruct (Z.eqb_spec (X mod d) 0), (Z.eqb_spec (Y mod d) 0); try lia.
  assert (X / d <> Y / d); [| lia].
  intro E. rewrite E in HX. lia.
Qed.

Lemma located_2 (K : Z) : located 2 K = K.
Proof.
  unfold located. pose proof (Z.div_mod K 2 ltac:(lia)).
  pose proof (Z.mod_pos_bound K 2 ltac:(lia)).
  destruct (Z.eqb_spec (K mod 2) 0); lia.
Qed.

Lemma located_comp (c d X : Z) :
  0 < c -> 0 < d -> located (2 * c) (located d X) = located (c * d) X.
Proof.
  intros Hc Hd. unfold located.
  set (a := X / d). set (b := if X mod d =? 0 then 0 else 1).
  assert (Hb : 0 <= b <= 1) by (unfold b; destruct (X mod d =? 0); lia).
  assert (Hdiv : (2 * a + b) / (2 * c) = a / c).
  { pose proof (Z.div_mod a c ltac:(lia)).
    pose proof (Z.mod_pos_bound a c Hc).
    symmetry. apply (Z.div_unique _ _ _ (2 * (a mod c) + b)); nia. }
  assert (Hmod : (2 * a + b) mod (2 * c) = 2 * (a mod c) + b).
  { pose proof (Z.div_mod a c ltac:(lia)).
    pose proof (Z.mod_pos_bound a c Hc).
    symmetry. apply (Z.mod_unique _ _ (a / c)); nia. }
  rewrite Hdiv, Hmod.
  assert (Hq : X / (c * d) = a / c).
  { unfold a. rewrite Z.mul_comm. symmetry. apply Z.div_div; lia. }
  assert (Hr : X mod (c * d) = X mod d + d * (a mod c)).
  { unfold a. rewrite (Z.mul_comm c d). apply Z.rem_mul_r; lia. }
  rewrite Hq, Hr.
  pose proof (Z.mod_pos_bound a c Hc).
  pose proof (Z.mod_pos_bound X d Hd).
  assert (Hb0 : b = 0 <-> X mod d = 0).
  { unfold b. destruct (Z.eqb_spec (X mod d) 0); lia. }
  destruct (Z.eqb_spec (2 * (a mod c) + b) 0),
    (Z.eqb_spec (X mod d + d * (a mod c)) 0); try lia; nia.
Qed.

Lemma located_scale (c d X : Z) :
  0 < c -> 0 < d -> located (c * d) (c * X) = located d X.
Proof.
  intros Hc Hd. unfold located.
  rewrite Z.div_mul_cancel_l by lia.
  rewrite Z.mul_mod_distr_l by lia.
  destruct (Z.eqb_spec (X mod d) 0), (Z.eqb_spec (c * (X mod d)) 0); try lia; nia.
Qed.

Lemma located_quarter (c K : Z) :
  0 < c -> located (2 * c) K / 4 = K / (4 * c).
Proof.
  intros Hc. unfold located.
  set (b := if _ =? 0 then 0 else 1).
  assert (Hb : 0 <= b <= 1) by (unfold b; destruct (_ =? 0); lia).
  set (u := K / (2 * c)).
  assert (Hu : K / (4 * c) = u / 2).
  { unfold u. replace (4 * c) with (2 * c * 2) by lia.
    symmetry. apply Z.div_div; lia. }
  rewrite Hu.
  pose proof (Z.mod_pos_bound u 2 ltac:(lia)).
  pose proof (Z.div_mod u 2 ltac:(lia)).
  symmetry. apply (Z.div_unique _ _ _ (2 * (u mod 2) + b)); lia.
Qed.

Lemma located_nonneg (d X : Z) : 0 < d -> 0 <= X -> 0 <= located d X.
Proof.
  intros Hd HX. unfold located.
  pose proof (Z.div_pos X d HX Hd). destruct (_ =? 0); lia.
Qed.

(** The same three laws for [locatedSqrt]. *)
Lemma sqrt_div_sq (c X : Z) :
  0 < c -> 0 <= X -> Z.sqrt X / c = Z.sqrt (X / (c * c)).
Proof.
  intros Hc HX.
  assert (Hcc : 0 < c * c) by nia.
  set (t := Z.sqrt (X / (c * c))).
  assert (Ht0 : 0 <= t) by apply Z.sqrt_nonneg.
  pose proof (Z.sqrt_spec (X / (c * c)) (Z.div_pos _ _ HX Hcc)) as Ht.
  fold t in Ht.
  pose proof (Z.sqrt_spec X HX) as Ha.
  set (a := Z.sqrt X) in *.
  assert (Ha0 : 0 <= a) by apply Z.sqrt_nonneg.
  pose proof (Z.div_mod X (c * c) ltac:(lia)) as HD.
  pose proof (Z.mod_pos_bound X (c * c) Hcc) as HB.
  cbv zeta in Ht, Ha. clearbody t.
  assert (H1 : c * c * (t * t) <= X).
  { pose proof (Z.mul_le_mono_nonneg_l _ _ (c * c) ltac:(lia) (proj1 Ht)). lia. }
  assert (H2 : X < c * c * (Z.succ t * Z.succ t)).
  { assert (X / (c * c) + 1 <= Z.succ t * Z.succ t) by lia.
    pose proof (Z.mul_le_mono_nonneg_l _ _ (c * c) ltac:(lia) H). lia. }
  symmetry. apply Z.div_unique with (r := a - c * t).
  2: lia.
  left. split.
  - assert (c * t <= a); [| lia].
    destruct (Z_le_gt_dec (c * t) a); [assumption |].
    assert (Z.succ a <= c * t) by lia. nia.
  - assert (a < c * Z.succ t); [| lia].
    destruct (Z_lt_le_dec a (c * Z.succ t)); [assumption |]. nia.
Qed.

Lemma locatedSqrt_comp (c X : Z) :
  0 < c -> 0 <= X -> located (2 * c) (locatedSqrt 1 X) = locatedSqrt c X.
Proof.
  intros Hc HX. unfold locatedSqrt at 1.
  rewrite !Z.mul_1_l, Z.div_1_r.
  pose proof (Z.sqrt_spec X HX) as Ha. cbv zeta in Ha.
  set (a := Z.sqrt X) in *.
  assert (Ha0 : 0 <= a) by apply Z.sqrt_nonneg.
  set (b := if X =? a * a then 0 else 1).
  assert (Hb : 0 <= b <= 1) by (unfold b; destruct (_ =? _); lia).
  unfold located.
  assert (Hdiv : (2 * a + b) / (2 * c) = a / c).
  { pose proof (Z.div_mod a c ltac:(lia)).
    pose proof (Z.mod_pos_bound a c Hc).
    symmetry. apply (Z.div_unique _ _ _ (2 * (a mod c) + b)); nia. }
  assert (Hmod : (2 * a + b) mod (2 * c) = 2 * (a mod c) + b).
  { pose proof (Z.div_mod a c ltac:(lia)).
    pose proof (Z.mod_pos_bound a c Hc).
    symmetry. apply (Z.mod_unique _ _ (a / c)); nia. }
  rewrite Hdiv, Hmod. unfold locatedSqrt.
  rewrite <- (sqrt_div_sq c X Hc HX). fold a.
  pose proof (Z.div_mod a c ltac:(lia)) as HD.
  pose proof (Z.mod_pos_bound a c Hc) as HB.
  f_equal.
  assert (Hb0 : b = 0 <-> X = a * a).
  { unfold b. destruct (Z.eqb_spec X (a * a)); lia. }
  destruct (Z.eqb_spec (2 * (a mod c) + b) 0),
    (Z.eqb_spec X (c * c * (a / c * (a / c)))); try lia.
  - exfalso.
    assert (Hac : a = c * (a / c)).
    { assert (Hsq : X = (c * (a / c)) * (c * (a / c))) by (rewrite e; ring).
      assert (0 <= a / c) by (apply Z.div_pos; lia).
      clearbody a. nia. }
    assert (HXa : X = a * a).
    { rewrite e. transitivity ((c * (a / c)) * (c * (a / c))); [ring |].
      now rewrite <- Hac. }
    apply Hb0 in HXa. lia.
Qed.

Lemma locatedSqrt_scale (c X : Z) :
  0 < c -> locatedSqrt c (c * c * X) = locatedSqrt 1 X.
Proof.
  intros Hc. unfold locatedSqrt.
  assert (Hcc : 0 < c * c) by nia.
  rewrite !Z.mul_1_l, Z.div_1_r.
  replace (c * c * X / (c * c)) with X
    by (rewrite Z.mul_comm, Z.div_mul; lia).
  destruct (Z.eqb_spec (c * c * X) (c * c * (Z.sqrt X * Z.sqrt X))),
    (Z.eqb_spec X (Z.sqrt X * Z.sqrt X)); try lia; nia.
Qed.

Lemma locatedSqrt_mono (c X Y : Z) :
  0 < c -> 0 <= X -> X <= Y -> locatedSqrt c X <= locatedSqrt c Y.
Proof.
  intros Hc HX Hxy. unfold locatedSqrt.
  assert (Hcc : 0 < c * c) by nia.
  pose proof (Z.div_le_mono X Y (c * c) Hcc Hxy) as Hq.
  pose proof (Z.sqrt_le_mono _ _ Hq) as Hs.
  pose proof (Z.sqrt_spec (X / (c * c)) (Z.div_pos _ _ HX Hcc)) as Ht.
  cbv zeta in Ht.
  pose proof (Z.div_mod X (c * c) ltac:(lia)) as HD.
  pose proof (Z.mod_pos_bound X (c * c) Hcc) as HB.
  set (s := Z.sqrt (X / (c * c))) in *.
  set (t := Z.sqrt (Y / (c * c))) in *.
  destruct (Z.eqb_spec X (c * c * (s * s))), (Z.eqb_spec Y (c * c * (t * t)));
    try lia.
  assert (s <> t); [| lia].
  intro E. rewrite <- E in *. nia.
Qed.

(** *** Shifting a mantissa right *)

(** One [shr_1] step is [located 4] on the integer of the record, and [p]
    steps are [located (2 ^ (p + 1))]. *)

Lemma quarter (m c : Z) :
  0 <= c < 4 -> (4 * m + c) / 4 = m /\ (4 * m + c) mod 4 = c.
Proof.
  intros Hc. split.
  - symmetry. apply (Z.div_unique _ _ _ c); lia.
  - symmetry. apply (Z.mod_unique _ _ m); lia.
Qed.

Lemma code_quarter (r : shr_record) :
  recordCode r / 4 = shr_m r
  /\ recordCode r mod 4 = 2 * Z.b2z (shr_r r) + Z.b2z (shr_s r).
Proof.
  unfold recordCode. rewrite <- Z.add_assoc. apply quarter.
  destruct (shr_r r), (shr_s r); simpl; lia.
Qed.

Lemma located_4 (m c : Z) :
  0 <= c < 4 -> located 4 (4 * m + c) = 2 * m + (if c =? 0 then 0 else 1).
Proof.
  intros Hc. unfold located. destruct (quarter m c Hc) as [-> ->]. reflexivity.
Qed.

Lemma code_shr_1 (r : shr_record) :
  0 <= shr_m r ->
  recordCode (shr_1 r) = located 4 (recordCode r) /\ 0 <= shr_m (shr_1 r).
Proof.
  destruct r as [m rb sb]. cbn [shr_m]. intros Hm.
  unfold recordCode at 2. cbn [shr_m shr_r shr_s].
  rewrite <- Z.add_assoc, located_4 by (destruct rb, sb; simpl; lia).
  destruct m as [| [p | p |] |]; try lia;
    destruct rb, sb; cbn; split; lia.
Qed.

Lemma code_iter (p : positive) :
  forall r : shr_record,
    0 <= shr_m r ->
    recordCode (iter_pos shr_1 p r) = located (2 ^ (Zpos p + 1)) (recordCode r)
    /\ 0 <= shr_m (iter_pos shr_1 p r).
Proof.
  induction p as [q IH | q IH |]; intros r Hr; cbn [iter_pos].
  - destruct (code_shr_1 r Hr) as [E1 H1].
    destruct (IH _ H1) as [E2 H2].
    destruct (IH _ H2) as [E3 H3].
    split; [| exact H3].
    rewrite E3, E2, E1.
    assert (Hq : 0 < 2 ^ Zpos q) by (apply Z.pow_pos_nonneg; lia).
    rewrite Z.pow_add_r by lia. change (2 ^ 1) with 2.
    rewrite (Z.mul_comm (2 ^ Zpos q) 2).
    rewrite (located_comp (2 ^ Zpos q) 4) by lia.
    rewrite (located_comp (2 ^ Zpos q) (2 ^ Zpos q * 4)) by lia.
    f_equal. change (Zpos q~1) with (2 * Zpos q + 1).
    replace (2 * Zpos q + 1 + 1) with (Zpos q + Zpos q + 2) by lia.
    rewrite !Z.pow_add_r by lia. change (2 ^ 2) with 4. ring.
  - destruct (IH _ Hr) as [E2 H2].
    destruct (IH _ H2) as [E3 H3].
    split; [| exact H3].
    rewrite E3, E2.
    assert (Hq : 0 < 2 ^ Zpos q) by (apply Z.pow_pos_nonneg; lia).
    rewrite Z.pow_add_r by lia. change (2 ^ 1) with 2.
    rewrite (Z.mul_comm (2 ^ Zpos q) 2).
    rewrite (located_comp (2 ^ Zpos q) (2 * 2 ^ Zpos q)) by lia.
    f_equal. change (Zpos q~0) with (2 * Zpos q).
    replace (2 * Zpos q + 1) with (Zpos q + Zpos q + 1) by lia.
    rewrite !Z.pow_add_r by lia. change (2 ^ 1) with 2. ring.
  - exact (code_shr_1 r Hr).
Qed.

Lemma shr_located (r : shr_record) (e n : Z) :
  0 <= shr_m r -> 0 <= n ->
  exists r', shr r e n = (r', e + n)
             /\ recordCode r' = located (2 ^ (n + 1)) (recordCode r)
             /\ 0 <= shr_m r'.
Proof.
  intros Hr Hn. destruct n as [| p | p]; try lia.
  - exists r. cbn [shr]. rewrite Z.add_0_r. change (2 ^ (0 + 1)) with 2.
    now rewrite located_2.
  - exists (iter_pos shr_1 p r). cbn [shr].
    destruct (code_iter p r Hr) as [E H]. auto.
Qed.

Lemma rne_code (r : shr_record) :
  round_nearest_even (shr_m r) (loc_of_shr_record r) = rneCode (recordCode r).
Proof.
  unfold rneCode. destruct (code_quarter r) as [-> ->].
  destruct r as [m [] []]; reflexivity.
Qed.

Lemma rneCode_bounds (K : Z) : K / 4 <= rneCode K <= K / 4 + 1.
Proof.
  unfold rneCode.
  destruct (K mod 4 <=? 1), (K mod 4 =? 2), (Z.even (K / 4)); lia.
Qed.

Lemma rneCode_mono (K K' : Z) : K <= K' -> rneCode K <= rneCode K'.
Proof.
  intros HK.
  pose proof (Z.div_le_mono K K' 4 ltac:(lia) HK) as Hq.
  pose proof (rneCode_bounds K) as B. pose proof (rneCode_bounds K') as B'.
  destruct (Z.eq_dec (K / 4) (K' / 4)) as [E | N]; [| lia].
  pose proof (Z.div_mod K 4 ltac:(lia)) as D.
  pose proof (Z.div_mod K' 4 ltac:(lia)) as D'.
  assert (Hc : K mod 4 <= K' mod 4) by lia.
  unfold rneCode. rewrite <- E.
  pose proof (Z.mod_pos_bound K 4 ltac:(lia)).
  pose proof (Z.mod_pos_bound K' 4 ltac:(lia)).
  destruct (Z.leb_spec (K mod 4) 1), (Z.leb_spec (K' mod 4) 1),
    (Z.eqb_spec (K mod 4) 2), (Z.eqb_spec (K' mod 4) 2),
    (Z.even (K / 4)); lia.
Qed.

(** *** The number of binary digits *)

Lemma digits2_pos_bounds (p : positive) :
  2 ^ (Zpos (digits2_pos p) - 1) <= Zpos p < 2 ^ Zpos (digits2_pos p).
Proof.
  induction p as [q IH | q IH |]; cbn [digits2_pos].
  - rewrite Pos2Z.inj_succ. change (Zpos q~1) with (2 * Zpos q + 1).
    replace (Z.succ (Zpos (digits2_pos q)) - 1)
      with (Z.succ (Zpos (digits2_pos q) - 1)) by lia.
    rewrite !Z.pow_succ_r by lia. lia.
  - rewrite Pos2Z.inj_succ. change (Zpos q~0) with (2 * Zpos q).
    replace (Z.succ (Zpos (digits2_pos q)) - 1)
      with (Z.succ (Zpos (digits2_pos q) - 1)) by lia.
    rewrite !Z.pow_succ_r by lia. lia.
  - cbn. lia.
Qed.

Lemma Zdigits2_nonneg (m : Z) : 0 <= Zdigits2 m.
Proof. destruct m; cbn; lia. Qed.

Lemma Zdigits2_bounds (m : Z) :
  0 < m -> 2 ^ (Zdigits2 m - 1) <= m < 2 ^ Zdigits2 m.
Proof.
  destruct m as [| p | p]; try lia. intros _. apply digits2_pos_bounds.
Qed.

Lemma Zdigits2_upper (m : Z) : 0 <= m -> m < 2 ^ Zdigits2 m.
Proof.
  intros Hm. destruct (Z.eq_dec m 0) as [-> | N]; [cbn; lia |].
  apply Zdigits2_bounds. lia.
Qed.

Lemma pow2_lt_inv (a b : Z) : 0 <= b -> 2 ^ a < 2 ^ b -> a < b.
Proof.
  intros Hb H. destruct (Z_lt_le_dec a b) as [L | L]; [exact L |].
  pose proof (Z.pow_le_mono_r 2 b a ltac:(lia) L). lia.
Qed.

Lemma Zdigits2_lower (m d : Z) : 0 <= d -> 2 ^ d <= m -> d < Zdigits2 m.
Proof.
  intros Hd H.
  assert (0 < 2 ^ d) by (apply Z.pow_pos_nonneg; lia).
  pose proof (Zdigits2_upper m ltac:(lia)).
  apply pow2_lt_inv; [apply Zdigits2_nonneg | lia].
Qed.

Lemma Zdigits2_mono (x y : Z) : 0 <= x <= y -> Zdigits2 x <= Zdigits2 y.
Proof.
  intros [Hx Hxy]. destruct (Z.eq_dec x 0) as [-> | N].
  - apply Zdigits2_nonneg.
  - pose proof (Zdigits2_bounds x ltac:(lia)) as [L _].
    pose proof (Zdigits2_nonneg x).
    assert (0 < Zdigits2 x).
    { destruct x; cbn in *; lia. }
    pose proof (Zdigits2_lower y (Zdigits2 x - 1) ltac:(lia) ltac:(lia)). lia.
Qed.

Lemma Zdigits2_div (m k : Z) :
  0 <= m -> 0 <= k -> Zdigits2 m - k <= Zdigits2 (m / 2 ^ k).
Proof.
  intros Hm Hk.
  pose proof (Zdigits2_nonneg (m / 2 ^ k)) as H0.
  destruct (Z.eq_dec m 0) as [-> | N]; [cbn; lia |].
  pose proof (Zdigits2_bounds m ltac:(lia)) as [L _].
  destruct (Z_lt_le_dec (Zdigits2 m - 1) k) as [C | C]; [lia |].
  assert (Hp : 0 < 2 ^ k) by (apply Z.pow_pos_nonneg; lia).
  assert (2 ^ (Zdigits2 m - 1 - k) <= m / 2 ^ k).
  { apply Z.div_le_lower_bound; [exact Hp |].
    rewrite <- Z.pow_add_r by lia.
    replace (k + (Zdigits2 m - 1 - k)) with (Zdigits2 m - 1) by lia. exact L. }
  pose proof (Zdigits2_lower (m / 2 ^ k) (Zdigits2 m - 1 - k) ltac:(lia) H).
  lia.
Qed.

(** *** Rounding to nearest, ties to even *)

(** [binary_round_aux] of a mantissa that needs no more bits than it has is
    [roundLocated], and [roundLocated] is monotone. *)
Lemma fexp_64 (e : Z) : fexp prec emax e = fexp64 e.
Proof. reflexivity. Qed.

Lemma pow2_pos (k : Z) : 0 <= k -> 0 < 2 ^ k.
Proof. intros. apply Z.pow_pos_nonneg; lia. Qed.

Lemma code_of_loc (m : Z) (l : location) :
  recordCode (shr_record_of_loc m l) / 4 = m /\ shr_m (shr_record_of_loc m l) = m.
Proof.
  destruct (code_quarter (shr_record_of_loc m l)) as [-> _].
  destruct l as [| []]; auto.
Qed.

Lemma mantissa_bound (m e : Z) :
  0 <= m -> e <= fexp64 (Zdigits2 m + e) ->
  m / 2 ^ (fexp64 (Zdigits2 m + e) - e) < 2 ^ 53.
Proof.
  intros Hm He. set (E := fexp64 (Zdigits2 m + e)) in *.
  assert (HE : Zdigits2 m + e - 53 <= E) by (unfold E, fexp64; lia).
  pose proof (Zdigits2_upper m Hm) as U.
  pose proof (Zdigits2_nonneg m) as N.
  apply Z.div_lt_upper_bound; [apply pow2_pos; lia |].
  rewrite <- Z.pow_add_r by lia.
  eapply Z.lt_le_trans; [exact U |].
  apply Z.pow_le_mono_r; lia.
Qed.

Lemma Zdigits2_le (M d : Z) : 0 <= M -> 0 <= d -> M < 2 ^ d -> Zdigits2 M <= d.
Proof.
  intros HM Hd H. destruct (Z.eq_dec M 0) as [-> | N]; [cbn; lia |].
  pose proof (Zdigits2_bounds M ltac:(lia)) as [L _].
  destruct (Z_le_gt_dec (Zdigits2 M) d) as [C | C]; [exact C |].
  pose proof (Z.pow_le_mono_r 2 d (Zdigits2 M - 1) ltac:(lia) ltac:(lia)). lia.
Qed.

Lemma binary_round_aux_located (m e : Z) (l : location) :
  0 <= m -> e <= fexp64 (Zdigits2 m + e) ->
  binary_round_aux prec emax false m e l
  = roundLocated (recordCode (shr_record_of_loc m l)) e.
Proof.
  intros Hm He. unfold roundLocated.
  destruct (code_of_loc m l) as [Hc Hs]. rewrite Hc.
  pose proof (mantissa_bound m e Hm He) as HB.
  set (E := fexp64 (Zdigits2 m + e)) in *.
  assert (HE : -1074 <= E) by (unfold E, fexp64; lia).
  unfold binary_round_aux, shr_fexp. rewrite fexp_64. fold E.
  destruct (shr_located (shr_record_of_loc m l) e (E - e)) as [r1 [S1 [C1 P1]]];
    [lia | lia |].
  rewrite S1. replace (e + (E - e)) with E by lia.
  rewrite rne_code, C1.
  set (K := recordCode (shr_record_of_loc m l)) in *.
  set (A := located (2 ^ (E - e + 1)) K) in *.
  assert (HA : A / 4 = m / 2 ^ (E - e)).
  { unfold A. rewrite Z.pow_add_r by lia. change (2 ^ 1) with 2.
    rewrite (Z.mul_comm _ 2), located_quarter by (apply pow2_pos; lia).
    rewrite <- Z.div_div by (try apply pow2_pos; lia).
    now rewrite Hc. }
  pose proof (rneCode_bounds A) as BM. rewrite HA in BM.
  assert (Hq : 0 <= m / 2 ^ (E - e)).
  { apply Z.div_pos; [lia | apply pow2_pos; lia]. }
  set (M := rneCode A) in *.
  rewrite fexp_64.
  destruct (Z.eq_dec M (2 ^ 53)) as [HM | HM].
  - rewrite HM.
    replace (fexp64 (Zdigits2 (2 ^ 53) + E) - E) with 1
      by (change (Zdigits2 (2 ^ 53)) with 54; unfold fexp64; lia).
    unfold finishRound. change (2 ^ 53 =? 0) with false. rewrite Z.eqb_refl.
    cbn [shr shr_record_of_loc iter_pos].
    change (emax - prec) with 971. reflexivity.
  - assert (HM2 : M < 2 ^ 53) by lia.
    pose proof (Zdigits2_le M 53 ltac:(lia) ltac:(lia) HM2) as HD.
    assert (Hn : fexp64 (Zdigits2 M + E) - E <= 0) by (unfold fexp64; lia).
    assert (S2 : shr (shr_record_of_loc M loc_Exact) E
                     (fexp64 (Zdigits2 M + E) - E)
                 = (shr_record_of_loc M loc_Exact, E)).
    { destruct (fexp64 (Zdigits2 M + E) - E); try reflexivity. lia. }
    rewrite S2. cbn [shr_record_of_loc shr_m].
    unfold finishRound. change (emax - prec) with 971.
    destruct (Z.eqb_spec M (2 ^ 53)) as [C | _]; [contradiction |].
    destruct M as [| p | p]; try reflexivity. lia.
Qed.

Lemma SFleb_finite (m1 m2 : positive) (e1 e2 : Z) :
  e1 < e2 \/ (e1 = e2 /\ (m1 <= m2)%positive) ->
  SFleb (S754_finite false m1 e1) (S754_finite false m2 e2) = true.
Proof.
  intros H. unfold SFleb, SFcompare.
  change (PosDef.Pos.compare_cont Eq) with Pos.compare.
  destruct (Z.compare_spec e1 e2); try reflexivity; try lia.
  destruct (Pos.compare_spec m1 m2); try reflexivity; lia.
Qed.

Lemma finish_le (M M' E E' : Z) :
  0 <= M <= 2 ^ 53 -> 0 <= M' <= 2 ^ 53 ->
  (E = E' /\ M <= M') \/ (E < E' /\ 2 ^ 52 <= M') ->
  SFleb (finishRound M E) (finishRound M' E') = true.
Proof.
  unfold finishRound.
  assert (HQ : 2 ^ 53 = 2 * 2 ^ 52) by reflexivity.
  assert (HZ : Zpos (2 ^ 52) = 2 ^ 52) by reflexivity.
  revert HQ HZ. generalize (2 ^ 53) as P. generalize (2 ^ 52)%positive as q.
  generalize (2 ^ 52) as Q. intros Q q P HQ HZ HM HM' H.
  destruct (Z.eqb_spec M 0) as [M0 | M0].
  { destruct (M' =? 0), (M' =? P), (E' + 1 <=? 971), (E' <=? 971);
      reflexivity. }
  destruct (Z.eqb_spec M' 0) as [M0' | M0']; [exfalso; lia |].
  destruct (Z.eqb_spec M P) as [MP | MP], (Z.eqb_spec M' P) as [MP' | MP'].
  - destruct (Z.leb_spec (E + 1) 971), (Z.leb_spec (E' + 1) 971);
      try reflexivity; try (exfalso; lia).
    apply SFleb_finite. destruct (Z.eq_dec E E'); [right | left]; lia.
  - destruct (Z.leb_spec (E + 1) 971), (Z.leb_spec E' 971);
      try reflexivity; try (exfalso; lia).
    apply SFleb_finite. destruct (Z.eq_dec (E + 1) E'); [right | left; lia].
    split; [assumption |].
    lia.
  - destruct (Z.leb_spec E 971), (Z.leb_spec (E' + 1) 971);
      try reflexivity; try (exfalso; lia).
    apply SFleb_finite. left. lia.
  - destruct (Z.leb_spec E 971), (Z.leb_spec E' 971);
      try reflexivity; try (exfalso; lia).
    apply SFleb_finite. destruct (Z.eq_dec E E'); [right | left; lia].
    split; [assumption |].
    lia.
Qed.

Lemma located_mantissa (K k : Z) :
  0 <= k -> located (2 ^ (k + 1)) K / 4 = K / 4 / 2 ^ k.
Proof.
  intros Hk. pose proof (pow2_pos k Hk).
  rewrite Z.pow_add_r by lia. change (2 ^ 1) with 2.
  rewrite (Z.mul_comm _ 2), located_quarter by assumption.
  symmetry. apply Z.div_div; lia.
Qed.

Lemma located_shift (K a b : Z) :
  0 <= a -> 0 <= b ->
  located (2 ^ (b + 1)) (located (2 ^ (a + 1)) K) = located (2 ^ (a + b + 1)) K.
Proof.
  intros Ha Hb. pose proof (pow2_pos a Ha). pose proof (pow2_pos b Hb).
  rewrite (Z.pow_add_r 2 b 1) by lia. change (2 ^ 1) with 2.
  rewrite (Z.mul_comm _ 2), located_comp by (try apply pow2_pos; lia).
  f_equal. rewrite <- Z.pow_add_r by lia. f_equal. lia.
Qed.

Lemma roundLocated_bounds (K e : Z) :
  0 <= K -> e <= fexp64 (Zdigits2 (K / 4) + e) ->
  let E := fexp64 (Zdigits2 (K / 4) + e) in
  let A := located (2 ^ (E - e + 1)) K in
  A / 4 = K / 4 / 2 ^ (E - e) /\ 0 <= A / 4 < 2 ^ 53
  /\ 0 <= rneCode A <= 2 ^ 53 /\ A / 4 <= rneCode A.
Proof.
  intros HK He E A.
  assert (Hm : 0 <= K / 4) by (apply Z.div_pos; lia).
  pose proof (mantissa_bound (K / 4) e Hm He) as HB. fold E in HB.
  assert (HA : A / 4 = K / 4 / 2 ^ (E - e)).
  { unfold A. apply located_mantissa. unfold E. lia. }
  assert (Hq : 0 <= K / 4 / 2 ^ (E - e)).
  { apply Z.div_pos; [lia | apply pow2_pos; unfold E; lia]. }
  pose proof (rneCode_bounds A). lia.
Qed.

Lemma roundLocated_mono (K K' e e' : Z) :
  0 <= K -> 0 <= K' -> e <= e' ->
  e <= fexp64 (Zdigits2 (K / 4) + e) ->
  e' <= fexp64 (Zdigits2 (K' / 4) + e') ->
  located (2 ^ (e' - e + 1)) K <= K' ->
  SFleb (roundLocated K e) (roundLocated K' e') = true.
Proof.
  intros HK HK' Hee He He' HL.
  destruct (roundLocated_bounds K e HK He) as [HA [BA [BM LM]]].
  destruct (roundLocated_bounds K' e' HK' He') as [HA' [BA' [BM' LM']]].
  unfold roundLocated.
  assert (Hm : 0 <= K / 4) by (apply Z.div_pos; lia).
  assert (Hm' : 0 <= K' / 4) by (apply Z.div_pos; lia).
  assert (S1 : K / 4 / 2 ^ (e' - e) <= K' / 4).
  { rewrite <- located_mantissa by lia. apply Z.div_le_mono; lia. }
  assert (S2 : Zdigits2 (K / 4) + e <= Zdigits2 (K' / 4) + e').
  { pose proof (Zdigits2_div (K / 4) (e' - e) Hm ltac:(lia)).
    assert (0 <= K / 4 / 2 ^ (e' - e)).
    { apply Z.div_pos; [lia | apply pow2_pos; lia]. }
    pose proof (Zdigits2_mono (K / 4 / 2 ^ (e' - e)) (K' / 4) ltac:(lia)).
    lia. }
  set (E := fexp64 (Zdigits2 (K / 4) + e)) in *.
  set (E' := fexp64 (Zdigits2 (K' / 4) + e')) in *.
  assert (S3 : E <= E') by (unfold E, E', fexp64; lia).
  apply finish_le; [exact BM | exact BM' |].
  destruct (Z.eq_dec E E') as [EE | NE]; [left | right]; (split; [lia |]).
  - apply rneCode_mono. rewrite <- EE.
    replace (E - e + 1) with ((e' - e) + (E - e') + 1) by lia.
    rewrite <- located_shift by lia.
    apply located_mono; [apply pow2_pos; lia | exact HL].
  - eapply Z.le_trans; [| exact LM']. rewrite HA'.
    assert (HE' : E' = Zdigits2 (K' / 4) + e' - 53).
    { assert (-1074 <= E) by (unfold E, fexp64; lia).
      unfold E', fexp64 in *. lia. }
    assert (Hp : 0 < K' / 4).
    { destruct (Z.eq_dec (K' / 4) 0) as [Z0 | NZ]; [| lia].
      rewrite Z0 in HE'. cbn in HE'. lia. }
    pose proof (Zdigits2_bounds (K' / 4) Hp) as [L _].
    apply Z.div_le_lower_bound; [apply pow2_pos; lia |].
    rewrite <- Z.pow_add_r by lia.
    replace (E' - e' + 52) with (Zdigits2 (K' / 4) - 1) by lia. exact L.
Qed.

Lemma roundLocated_nonneg (K e : Z) :
  SFleb (S754_zero false) (roundLocated K e) = true.
Proof.
  unfold roundLocated, finishRound.
  repeat match goal with |- context [if ?c then _ else _] => destruct c end;
    reflexivity.
Qed.

(** *** Valid numbers and their order *)
Lemma nonnegative_spec (z : spec_float) :
  SFleb (S754_zero false) z = nonnegative z.
Proof. destruct z as [[] | [] | | [] m e]; reflexivity. Qed.

Lemma nonnegative_roundLocated (K e : Z) : nonnegative (roundLocated K e) = true.
Proof. rewrite <- nonnegative_spec. apply roundLocated_nonneg. Qed.

Lemma zero_least (s : bool) (z : spec_float) :
  nonnegative z = true -> SFleb (S754_zero s) z = true.
Proof. destruct z as [[] | [] | | [] m e]; try discriminate; reflexivity. Qed.

Lemma infinity_greatest (z : spec_float) :
  nonnegative z = true -> SFleb z (S754_infinity false) = true.
Proof. destruct z as [[] | [] | | [] m e]; try discriminate; reflexivity. Qed.

Lemma shift_match (m s : Z) :
  0 < s ->
  match s with Zpos _ => Z.shiftl m s | Z0 => m | Zneg _ => 0 end = m * 2 ^ s.
Proof. intros Hs. destruct s; try lia. apply Z.shiftl_mul_pow2. lia. Qed.

Lemma valid_finite (s : bool) (m : positive) (e : Z) :
  valid_binary (S754_finite s m e) = true ->
  -1074 <= e <= 971
  /\ 1 <= Zdigits2 (Zpos m) <= 53
  /\ (-1074 < e -> Zdigits2 (Zpos m) = 53)
  /\ 2 ^ (Zdigits2 (Zpos m) - 1) <= Zpos m < 2 ^ Zdigits2 (Zpos m).
Proof.
  unfold SpecFloat.valid_binary, bounded, canonical_mantissa.
  rewrite fexp_64. change (emax - prec) with 971.
  intros H. apply andb_prop in H. destruct H as [H1 H2].
  apply Z.eqb_eq in H1. apply Z.leb_le in H2.
  change (Zpos (digits2_pos m)) with (Zdigits2 (Zpos m)) in H1.
  pose proof (Zdigits2_bounds (Zpos m) ltac:(lia)).
  assert (0 < Zdigits2 (Zpos m)) by (cbn; lia).
  unfold fexp64 in H1. repeat split; try lia.
Qed.

Lemma pow2_split (a b : Z) : 0 <= a -> 0 <= b -> 2 ^ (a + b) = 2 ^ a * 2 ^ b.
Proof. intros. apply Z.pow_add_r; lia. Qed.

(** The order of two valid positive numbers, read on their mantissas. *)
Lemma value_order (mx my : positive) (ex ey : Z) :
  valid_binary (S754_finite false mx ex) = true ->
  valid_binary (S754_finite false my ey) = true ->
  SFleb (S754_finite false mx ex) (S754_finite false my ey) = true ->
  ex <= ey
  /\ Zpos mx <= Zpos my * 2 ^ (ey - ex)
  /\ Zdigits2 (Zpos mx) + ex <= Zdigits2 (Zpos my) + ey.
Proof.
  intros Vx Vy H.
  destruct (valid_finite _ _ _ Vx) as [Ex [Dx [Nx Bx]]].
  destruct (valid_finite _ _ _ Vy) as [Ey [Dy [Ny By]]].
  unfold SFleb, SFcompare in H.
  change (PosDef.Pos.compare_cont Eq) with Pos.compare in H.
  destruct (Z.compare_spec ex ey) as [E | L | G]; try discriminate.
  - subst ey. rewrite Z.sub_diag, Z.mul_1_r.
    assert (Zpos mx <= Zpos my).
    { destruct (Pos.compare_spec mx my); try discriminate; lia. }
    repeat split; try lia.
    pose proof (Zdigits2_mono (Zpos mx) (Zpos my) ltac:(lia)). lia.
  - rewrite (Ny ltac:(lia)) in *.
    assert (P1 : 2 ^ Zdigits2 (Zpos mx) <= 2 ^ 53)
      by (apply Z.pow_le_mono_r; lia).
    assert (P2 : 2 ^ 1 <= 2 ^ (ey - ex)) by (apply Z.pow_le_mono_r; lia).
    change (2 ^ 1) with 2 in P2. change (2 ^ (53 - 1)) with (2 ^ 52) in By.
    assert (P3 : 2 ^ 53 = 2 * 2 ^ 52) by reflexivity.
    repeat split; first [lia | nia].
Qed.

(** *** Dividing by 5000 *)
Lemma Prim2SF_5000 : Prim2SF 5000 = fiveThousand.
Proof. reflexivity. Qed.

Lemma div_code (d N : Z) :
  0 < d -> 0 <= N ->
  recordCode (shr_record_of_loc (N / d) (new_location_even d (N mod d)))
  = located d (2 * N).
Proof.
  intros Hd HN. unfold new_location_even, located.
  pose proof (Z.div_mod N d ltac:(lia)) as HD.
  pose proof (Z.mod_pos_bound N d Hd) as HB.
  set (q := N / d) in *. set (r := N mod d) in *. clearbody q r.
  destruct (Z.eqb_spec r 0) as [R0 | R0].
  - assert (Hq : (2 * N) / d = 2 * q)
      by (symmetry; apply (Z.div_unique _ _ _ 0); lia).
    assert (Hr : (2 * N) mod d = 0)
      by (symmetry; apply (Z.mod_unique _ _ (2 * q)); lia).
    rewrite Hq, Hr. unfold recordCode.
    cbn [shr_record_of_loc shr_m shr_r shr_s Z.b2z]. change (0 =? 0) with true. lia.
  - destruct (Z.compare_spec (2 * r) d) as [C | C | C].
    + assert (Hq : (2 * N) / d = 2 * q + 1)
        by (symmetry; apply (Z.div_unique _ _ _ 0); lia).
      assert (Hr : (2 * N) mod d = 0)
        by (symmetry; apply (Z.mod_unique _ _ (2 * q + 1)); lia).
      rewrite Hq, Hr. unfold recordCode.
      cbn [shr_record_of_loc shr_m shr_r shr_s Z.b2z]. change (0 =? 0) with true. lia.
    + assert (Hq : (2 * N) / d = 2 * q)
        by (symmetry; apply (Z.div_unique _ _ _ (2 * r)); lia).
      assert (Hr : (2 * N) mod d = 2 * r)
        by (symmetry; apply (Z.mod_unique _ _ (2 * q)); lia).
      rewrite Hq, Hr. unfold recordCode.
      cbn [shr_record_of_loc shr_m shr_r shr_s Z.b2z].
      destruct (Z.eqb_spec (2 * r) 0); lia.
    + assert (Hq : (2 * N) / d = 2 * q + 1)
        by (symmetry; apply (Z.div_unique _ _ _ (2 * r - d)); lia).
      assert (Hr : (2 * N) mod d = 2 * r - d)
        by (symmetry; apply (Z.mod_unique _ _ (2 * q + 1)); lia).
      rewrite Hq, Hr. unfold recordCode.
      cbn [shr_record_of_loc shr_m shr_r shr_s Z.b2z].
      destruct (Z.eqb_spec (2 * r - d) 0); lia.
Qed.

Lemma div_eucl_div_mod (a b : Z) : Z.div_eucl a b = (a / b, a mod b).
Proof. unfold Z.div, Z.modulo. now destruct (Z.div_eucl a b). Qed.

Lemma SFdiv_5000 (m : positive) (e : Z) :
  valid_binary (S754_finite false m e) = true ->
  let e' := fexp64 (e + 40) in
  let K := located 5497558138880000 (2 * (Zpos m * 2 ^ (e + 40 - e'))) in
  SF64div (S754_finite false m e) fiveThousand = roundLocated K e'
  /\ 0 <= K /\ e' <= fexp64 (Zdigits2 (K / 4) + e').
Proof.
  intros V e' K.
  destruct (valid_finite _ _ _ V) as [Ex [Dx [Nx Bx]]].
  assert (He' : -1074 <= e' /\ e' <= e /\ (e' = -1074 \/ e' = e - 13))
    by (unfold e', fexp64; lia).
  set (N := Zpos m * 2 ^ (e + 40 - e')) in *.
  set (D := 5497558138880000) in *.
  assert (HD : 0 < D) by reflexivity.
  assert (HN : 0 < N).
  { unfold N. apply Z.mul_pos_pos; [lia | apply pow2_pos; lia]. }
  assert (HK : 0 <= K) by (apply located_nonneg; lia).
  assert (Hq : 0 <= N / D) by (apply Z.div_pos; lia).
  assert (HKc : recordCode (shr_record_of_loc (N / D) (new_location_even D (N mod D)))
                = K) by (apply div_code; lia).
  assert (HKq : K / 4 = N / D).
  { rewrite <- HKc. apply code_of_loc. }
  assert (HE : e' <= fexp64 (Zdigits2 (N / D) + e')).
  { destruct (Z.eq_dec e' (-1074)) as [-> | Ne]; [unfold fexp64; lia |].
    assert (Zdigits2 (Zpos m) = 53) by (apply Nx; lia).
    assert (Hs : e + 40 - e' = 53) by lia.
    assert (HN2 : N = Zpos m * 2 ^ 53) by (unfold N; now rewrite Hs).
    assert (2 ^ 52 <= Zpos m) by (replace 52 with (Zdigits2 (Zpos m) - 1) by lia; lia).
    assert (2 ^ 52 <= N / D).
    { apply Z.div_le_lower_bound; [exact HD |]. rewrite HN2.
      assert (D * 2 ^ 52 <= 2 ^ 52 * 2 ^ 53) by (vm_compute; discriminate).
      assert (0 < 2 ^ 53) by reflexivity. nia. }
    pose proof (Zdigits2_lower (N / D) 52 ltac:(lia) ltac:(assumption)).
    unfold fexp64. lia. }
  split; [| split; [exact HK | now rewrite HKq]].
  unfold SF64div, SFdiv, fiveThousand, SFdiv_core_binary.
  cbv zeta.
  change IntDef.Z.min with Z.min. change IntDef.Z.div_eucl with Z.div_eucl.
  change IntDef.Z.shiftl with Z.shiftl.
  change (Zdigits2 5497558138880000) with 53. rewrite fexp_64.
  replace (Z.min (fexp64 (Zdigits2 (Zpos m) + e - (53 + -40))) (e - -40))
    with e' by (unfold e', fexp64; lia).
  rewrite shift_match by lia.
  replace (e - -40 - e') with (e + 40 - e') by lia. fold N. fold D.
  rewrite div_eucl_div_mod. cbv beta iota.
  unfold new_location. change (Z.even D) with true. cbv iota.
  change (xorb false false) with false.
  rewrite binary_round_aux_located by assumption.
  now rewrite HKc.
Qed.

Lemma scaled_order (mx my a b j k : Z) :
  0 <= a -> 0 <= b -> 0 <= j -> 0 <= k -> k + b = a + j ->
  0 <= my -> mx <= my * 2 ^ j -> mx * 2 ^ a <= 2 ^ k * (my * 2 ^ b).
Proof.
  intros Ha Hb Hj Hk E Hmy H.
  assert (P : 2 ^ k * 2 ^ b = 2 ^ a * 2 ^ j).
  { rewrite <- !Z.pow_add_r by lia. f_equal. exact E. }
  pose proof (pow2_pos a Ha). pose proof (pow2_pos j Hj).
  replace (2 ^ k * (my * 2 ^ b)) with (my * (2 ^ k * 2 ^ b)) by ring.
  rewrite P. nia.
Qed.

(** A monotone operation on the non-negative numbers, from its behaviour on
    the positive finite ones. *)
Lemma monotone_from_finite (op : spec_float -> spec_float) :
  (forall mx ex my ey,
      valid_binary (S754_finite false mx ex) = true ->
      valid_binary (S754_finite false my ey) = true ->
      SFleb (S754_finite false mx ex) (S754_finite false my ey) = true ->
      SFleb (op (S754_finite false mx ex)) (op (S754_finite false my ey)) = true) ->
  (forall mx ex,
      valid_binary (S754_finite false mx ex) = true ->
      nonnegative (op (S754_finite false mx ex)) = true) ->
  (forall s s', SFleb (op (S754_zero s)) (op (S754_zero s')) = true) ->
  (forall s, nonnegative (op (S754_zero s)) = true) ->
  (forall s my ey,
      valid_binary (S754_finite false my ey) = true ->
      SFleb (op (S754_zero s)) (op (S754_finite false my ey)) = true) ->
  op (S754_infinity false) = S754_infinity false ->
  forall x y,
    valid_binary x = true -> valid_binary y = true ->
    nonnegative x = true -> SFleb x y = true ->
    nonnegative (op x) = true /\ SFleb (op x) (op y) = true.
Proof.
  intros HF HN HZZ HZN HZF HI x y Vx Vy Nx Hxy.
  destruct x as [sx | [] | | [] mx ex]; try discriminate.
  - split; [apply HZN |].
    destruct y as [sy | [] | | [] my ey]; try discriminate.
    + apply HZZ.
    + rewrite HI. apply infinity_greatest, HZN.
    + now apply HZF.
  - rewrite HI. split; [reflexivity |].
    destruct y as [sy | [] | | [] my ey]; try discriminate.
    now rewrite HI.
  - split; [now apply HN |].
    destruct y as [sy | [] | | [] my ey]; try discriminate.
    + rewrite HI. apply infinity_greatest. now apply HN.
    + now apply HF.
Qed.

Lemma SFdiv_5000_finite (mx : positive) (ex : Z) (my : positive) (ey : Z) :
  valid_binary (S754_finite false mx ex) = true ->
  valid_binary (S754_finite false my ey) = true ->
  SFleb (S754_finite false mx ex) (S754_finite false my ey) = true ->
  SFleb (SF64div (S754_finite false mx ex) fiveThousand)
        (SF64div (S754_finite false my ey) fiveThousand) = true.
Proof.
  intros Vx Vy H.
  destruct (SFdiv_5000 mx ex Vx) as [Ex [Kx Cx]].
  destruct (SFdiv_5000 my ey Vy) as [Ey [Ky Cy]].
  destruct (value_order _ _ _ _ Vx Vy H) as [Hee [Hm _]].
  destruct (valid_finite _ _ _ Vx) as [Bx _].
  destruct (valid_finite _ _ _ Vy) as [By _].
  rewrite Ex, Ey.
  assert (Hk : fexp64 (ex + 40) <= fexp64 (ey + 40)) by (unfold fexp64; lia).
  assert (Hsx : fexp64 (ex + 40) <= ex + 40) by (unfold fexp64; lia).
  assert (Hsy : fexp64 (ey + 40) <= ey + 40) by (unfold fexp64; lia).
  apply roundLocated_mono; try assumption.
  set (k := fexp64 (ey + 40) - fexp64 (ex + 40)).
  rewrite (Z.pow_add_r 2 k 1) by (unfold k; lia). change (2 ^ 1) with 2.
  rewrite (Z.mul_comm _ 2), located_comp by (try apply pow2_pos; unfold k; lia).
  rewrite <- (located_scale (2 ^ k) 5497558138880000
                (2 * (Zpos my * 2 ^ (ey + 40 - fexp64 (ey + 40)))))
    by (try apply pow2_pos; unfold k; lia).
  apply located_mono.
  - apply Z.mul_pos_pos; [apply pow2_pos; unfold k; lia | lia].
  - pose proof (scaled_order (Zpos mx) (Zpos my)
                  (ex + 40 - fexp64 (ex + 40)) (ey + 40 - fexp64 (ey + 40))
                  (ey - ex) k) as S.
    assert (T : Zpos mx * 2 ^ (ex + 40 - fexp64 (ex + 40))
                <= 2 ^ k * (Zpos my * 2 ^ (ey + 40 - fexp64 (ey + 40))))
      by (apply S; unfold k; lia).
    lia.
Qed.

Lemma SFdiv_5000_mono (x y : spec_float) :
  valid_binary x = true -> valid_binary y = true ->
  nonnegative x = true -> SFleb x y = true ->
  nonnegative (SF64div x fiveThousand) = true
  /\ SFleb (SF64div x fiveThousand) (SF64div y fiveThousand) = true.
Proof.
  apply (monotone_from_finite (fun z => SF64div z fiveThousand)).
  - apply SFdiv_5000_finite.
  - intros mx ex V. destruct (SFdiv_5000 mx ex V) as [-> _].
    apply nonnegative_roundLocated.
  - intros [] []; reflexivity.
  - intros []; reflexivity.
  - intros s my ey V. destruct (SFdiv_5000 my ey V) as [E _].
    change (SF64div (S754_zero s) fiveThousand) with (S754_zero (xorb s false)).
    apply zero_least. cbv beta. rewrite E. apply nonnegative_roundLocated.
  - reflexivity.
Qed.

(** *** Square root *)
Lemma sqrt_code (q r N : Z) :
  N = q * q + r -> 0 <= r <= 2 * q ->
  recordCode (shr_record_of_loc q
          (if r =? 0 then loc_Exact
           else loc_Inexact (if r <=? q then Lt else Gt)))
  = locatedSqrt 1 (4 * N).
Proof.
  intros HN Hr. unfold locatedSqrt.
  rewrite !Z.mul_1_l, Z.div_1_r.
  set (b := if r <=? q then 0 else 1).
  assert (Hb : b = 0 /\ r <= q \/ b = 1 /\ q < r).
  { unfold b. destruct (Z.leb_spec r q); lia. }
  assert (Hs : Z.sqrt (4 * N) = 2 * q + b).
  { apply Z.sqrt_unique. nia. }
  rewrite Hs. unfold recordCode.
  destruct (Z.eqb_spec r 0) as [R0 | R0].
  - cbn [shr_record_of_loc shr_m shr_r shr_s Z.b2z].
    destruct (Z.eqb_spec (4 * N) ((2 * q + b) * (2 * q + b))); nia.
  - unfold b. destruct (Z.leb_spec r q);
      cbn [shr_record_of_loc shr_m shr_r shr_s Z.b2z];
      match goal with |- context [?a =? ?c] => destruct (Z.eqb_spec a c) end;
      nia.
Qed.

Lemma sqrtrem_spec' (N : Z) :
  0 <= N ->
  exists q r, Z.sqrtrem N = (q, r) /\ N = q * q + r /\ 0 <= r <= 2 * q.
Proof.
  intros HN. pose proof (Z.sqrtrem_spec N HN) as H.
  destruct (Z.sqrtrem N) as [q r]. exists q, r. tauto.
Qed.

Lemma SFsqrt_finite (m : positive) (e : Z) :
  valid_binary (S754_finite false m e) = true ->
  let e' := (Zdigits2 (Zpos m) + e + 1) / 2 - 53 in
  let K := locatedSqrt 1 (4 * (Zpos m * 2 ^ (e - 2 * e'))) in
  SF64sqrt (S754_finite false m e) = roundLocated K e'
  /\ 0 <= K /\ e' <= fexp64 (Zdigits2 (K / 4) + e') /\ 0 < e - 2 * e'.
Proof.
  intros V e' K.
  destruct (valid_finite _ _ _ V) as [Ex [Dx [Nx Bx]]].
  set (d := Zdigits2 (Zpos m)) in *.
  assert (Hs : 104 - (d - 1) <= e - 2 * e' /\ 0 < e - 2 * e').
  { unfold e'. Z.to_euclidean_division_equations. lia. }
  set (N := Zpos m * 2 ^ (e - 2 * e')) in *.
  assert (HN : 2 ^ 104 <= N).
  { unfold N.
    assert (P : 2 ^ 104 <= 2 ^ (d - 1) * 2 ^ (e - 2 * e')).
    { rewrite <- Z.pow_add_r by lia. apply Z.pow_le_mono_r; lia. }
    pose proof (pow2_pos (e - 2 * e') ltac:(lia)). nia. }
  assert (HN0 : 0 <= N) by (assert (0 < 2 ^ 104) by reflexivity; lia).
  destruct (sqrtrem_spec' N HN0) as [q [r [HQ [HNq Hr]]]].
  assert (HKc : recordCode (shr_record_of_loc q
                  (if r =? 0 then loc_Exact
                   else loc_Inexact (if r <=? q then Lt else Gt))) = K)
    by (apply sqrt_code; assumption).
  assert (HKq : K / 4 = q) by (rewrite <- HKc; apply code_of_loc).
  assert (Hq : 2 ^ 52 <= q).
  { assert (Hq' : q = Z.sqrt N) by (symmetry; apply Z.sqrt_unique; nia).
    rewrite Hq'. change (2 ^ 52) with (Z.sqrt (2 ^ 104)).
    now apply Z.sqrt_le_mono. }
  assert (HE : e' <= fexp64 (Zdigits2 q + e')).
  { pose proof (Zdigits2_lower q 52 ltac:(lia) Hq). unfold fexp64. lia. }
  assert (HK : 0 <= K).
  { rewrite <- HKc. unfold recordCode. rewrite (proj2 (code_of_loc q _)).
    assert (0 < 2 ^ 52) by reflexivity.
    destruct (shr_r _), (shr_s _); cbn [Z.b2z]; lia. }
  split; [| split; [exact HK | split; [now rewrite HKq | lia]]].
  unfold SF64sqrt, SFsqrt, SFsqrt_core_binary.
  cbv zeta.
  change IntDef.Z.min with Z.min. change IntDef.Z.sqrtrem with Z.sqrtrem.
  change IntDef.Z.shiftl with Z.shiftl. change IntDef.Z.div2 with Z.div2.
  rewrite fexp_64, !Z.div2_div. fold d.
  replace (Z.min (fexp64 ((d + e + 1) / 2)) (e / 2)) with e'.
  2:{ unfold e', fexp64. Z.to_euclidean_division_equations. lia. }
  rewrite shift_match by lia. fold N.
  rewrite HQ.
  change IntDef.Z.eqb with Z.eqb. change IntDef.Z.leb with Z.leb.
  rewrite binary_round_aux_located by (try assumption; lia).
  now rewrite HKc.
Qed.

Lemma SFsqrt_finite_mono (mx : positive) (ex : Z) (my : positive) (ey : Z) :
  valid_binary (S754_finite false mx ex) = true ->
  valid_binary (S754_finite false my ey) = true ->
  SFleb (S754_finite false mx ex) (S754_finite false my ey) = true ->
  SFleb (SF64sqrt (S754_finite false mx ex))
        (SF64sqrt (S754_finite false my ey)) = true.
Proof.
  intros Vx Vy H.
  destruct (SFsqrt_finite mx ex Vx) as [Ex [Kx [Cx Sx]]].
  destruct (SFsqrt_finite my ey Vy) as [Ey [Ky [Cy Sy]]].
  destruct (value_order _ _ _ _ Vx Vy H) as [Hee [Hm Hg]].
  rewrite Ex, Ey. clear Ex Ey.
  set (e1 := (Zdigits2 (Zpos mx) + ex + 1) / 2 - 53) in *.
  set (e2 := (Zdigits2 (Zpos my) + ey + 1) / 2 - 53) in *.
  assert (Hk : e1 <= e2).
  { unfold e1, e2.
    pose proof (Z.div_le_mono (Zdigits2 (Zpos mx) + ex + 1)
                  (Zdigits2 (Zpos my) + ey + 1) 2 ltac:(lia) ltac:(lia)).
    lia. }
  apply roundLocated_mono; try assumption.
  set (k := e2 - e1). assert (Hk0 : 0 <= k) by (unfold k; lia).
  pose proof (pow2_pos k Hk0) as Pk.
  rewrite (Z.pow_add_r 2 k 1) by lia. change (2 ^ 1) with 2.
  rewrite (Z.mul_comm _ 2), locatedSqrt_comp by lia.
  rewrite <- (locatedSqrt_scale (2 ^ k) (4 * (Zpos my * 2 ^ (ey - 2 * e2))))
    by assumption.
  apply locatedSqrt_mono; [assumption | lia |].
  pose proof (scaled_order (Zpos mx) (Zpos my)
                (ex - 2 * e1) (ey - 2 * e2) (ey - ex) (k + k)) as S.
  assert (T : Zpos mx * 2 ^ (ex - 2 * e1)
              <= 2 ^ (k + k) * (Zpos my * 2 ^ (ey - 2 * e2)))
    by (apply S; unfold k; lia).
  rewrite Z.pow_add_r in T by lia. nia.
Qed.

Lemma SFsqrt_mono (x y : spec_float) :
  valid_binary x = true -> valid_binary y = true ->
  nonnegative x = true -> SFleb x y = true ->
  nonnegative (SF64sqrt x) = true /\ SFleb (SF64sqrt x) (SF64sqrt y) = true.
Proof.
  apply (monotone_from_finite SF64sqrt).
  - apply SFsqrt_finite_mono.
  - intros mx ex V. destruct (SFsqrt_finite mx ex V) as [-> _].
    apply nonnegative_roundLocated.
  - intros [] []; reflexivity.
  - intros []; reflexivity.
  - intros s my ey V. destruct (SFsqrt_finite my ey V) as [E _].
    change (SF64sqrt (S754_zero s)) with (S754_zero s).
    apply zero_least. rewrite E. apply nonnegative_roundLocated.
  - reflexivity.
Qed.

(** *** Multiplying by 4 *)
Lemma Prim2SF_4 : Prim2SF 4 = four.
Proof. reflexivity. Qed.
Lemma Prim2SF_3 : Prim2SF 3 = three.
Proof. reflexivity. Qed.

Lemma located_1 (X : Z) : located 1 X = 2 * X.
Proof. unfold located. rewrite Z.div_1_r, Z.mod_1_r. cbn. lia. Qed.

Lemma code_exact (N : Z) : recordCode (shr_record_of_loc N loc_Exact) = located 1 (2 * N).
Proof.
  rewrite located_1. unfold recordCode.
  cbn [shr_record_of_loc shr_m shr_r shr_s Z.b2z]. lia.
Qed.

(** Rounding an integer [N] at the exponent [e]. *)
Lemma round_exact_located (N e : Z) :
  0 <= N -> e <= fexp64 (Zdigits2 N + e) ->
  binary_round_aux prec emax false N e loc_Exact
  = roundLocated (located 1 (2 * N)) e
  /\ 0 <= located 1 (2 * N)
  /\ e <= fexp64 (Zdigits2 (located 1 (2 * N) / 4) + e).
Proof.
  intros HN HE.
  assert (HK : located 1 (2 * N) / 4 = N).
  { rewrite <- code_exact. apply code_of_loc. }
  rewrite HK. split; [| split; [rewrite located_1; lia | exact HE]].
  rewrite binary_round_aux_located by assumption.
  now rewrite code_exact.
Qed.

Lemma exact_located_le (Nx Ny ex ey : Z) :
  ex <= ey -> 0 <= Ny -> Nx <= 2 ^ (ey - ex) * Ny ->
  located (2 ^ (ey - ex + 1)) (located 1 (2 * Nx)) <= located 1 (2 * Ny).
Proof.
  intros He HN H. pose proof (pow2_pos (ey - ex) ltac:(lia)) as P.
  rewrite (Z.pow_add_r 2 (ey - ex) 1) by lia. change (2 ^ 1) with 2.
  rewrite (Z.mul_comm _ 2), located_comp by lia.
  rewrite <- (located_scale (2 ^ (ey - ex)) 1 (2 * Ny)) by lia.
  apply located_mono; lia.
Qed.

Lemma SFmul_4 (m : positive) (e : Z) :
  valid_binary (S754_finite false m e) = true ->
  let K := located 1 (2 * (Zpos m * 2 ^ 52)) in
  SF64mul (S754_finite false m e) four = roundLocated K (e - 50)
  /\ 0 <= K /\ e - 50 <= fexp64 (Zdigits2 (K / 4) + (e - 50)).
Proof.
  intros V K.
  assert (HN : 2 ^ 52 <= Zpos m * 2 ^ 52).
  { assert (0 < 2 ^ 52) by reflexivity. nia. }
  assert (HE : e - 50 <= fexp64 (Zdigits2 (Zpos m * 2 ^ 52) + (e - 50))).
  { pose proof (Zdigits2_lower _ 52 ltac:(lia) HN). unfold fexp64. lia. }
  assert (H0 : 0 <= Zpos m * 2 ^ 52) by lia.
  destruct (round_exact_located _ _ H0 HE) as [R [K0 KE]].
  split; [| split; assumption].
  unfold SF64mul, SFmul, four. change (xorb false false) with false.
  change (Zpos (m * 4503599627370496)) with (Zpos m * 2 ^ 52).
  change (e + -50) with (e - 50). exact R.
Qed.

Lemma SFmul_4_finite (mx : positive) (ex : Z) (my : positive) (ey : Z) :
  valid_binary (S754_finite false mx ex) = true ->
  valid_binary (S754_finite false my ey) = true ->
  SFleb (S754_finite false mx ex) (S754_finite false my ey) = true ->
  SFleb (SF64mul (S754_finite false mx ex) four)
        (SF64mul (S754_finite false my ey) four) = true.
Proof.
  intros Vx Vy H.
  destruct (SFmul_4 mx ex Vx) as [Ex [Kx Cx]].
  destruct (SFmul_4 my ey Vy) as [Ey [Ky Cy]].
  destruct (value_order _ _ _ _ Vx Vy H) as [Hee [Hm _]].
  rewrite Ex, Ey.
  apply roundLocated_mono; try assumption; try lia.
  replace (ey - 50 - (ex - 50) + 1) with (ey - ex + 1) by lia.
  apply exact_located_le; lia.
Qed.

Lemma SFmul_4_mono (x y : spec_float) :
  valid_binary x = true -> valid_binary y = true ->
  nonnegative x = true -> SFleb x y = true ->
  nonnegative (SF64mul x four) = true
  /\ SFleb (SF64mul x four) (SF64mul y four) = true.
Proof.
  apply (monotone_from_finite (fun z => SF64mul z four)).
  - apply SFmul_4_finite.
  - intros mx ex V. destruct (SFmul_4 mx ex V) as [-> _].
    apply nonnegative_roundLocated.
  - intros [] []; reflexivity.
  - intros []; reflexivity.
  - intros s my ey V. destruct (SFmul_4 my ey V) as [E _].
    change (SF64mul (S754_zero s) four) with (S754_zero (xorb s false)).
    apply zero_least. cbv beta. rewrite E. apply nonnegative_roundLocated.
  - reflexivity.
Qed.

(** *** Adding 3 *)
Lemma iter_xO (m d : positive) :
  Zpos (Pos.iter xO m d) = Zpos m * 2 ^ Zpos d.
Proof.
  induction d as [| d IH] using Pos.peano_ind.
  - cbn [Pos.iter]. change (2 ^ 1) with 2. lia.
  - rewrite Pos.iter_succ, Pos2Z.inj_succ, Z.pow_succ_r by lia.
    change (Zpos (Pos.iter xO m d)~0) with (2 * Zpos (Pos.iter xO m d)).
    rewrite IH. ring.
Qed.

Lemma shl_align_down (mx : positive) (ex ex' : Z) :
  ex' <= ex ->
  Zpos (fst (shl_align mx ex ex')) = Zpos mx * 2 ^ (ex - ex')
  /\ (ex' < ex -> snd (shl_align mx ex ex') = ex')
  /\ (ex' = ex -> snd (shl_align mx ex ex') = ex).
Proof.
  intros H. unfold shl_align.
  destruct (ex' - ex) as [| p | p] eqn:E; try lia.
  - replace (ex - ex') with 0 by lia. cbn [fst snd]. repeat split; lia.
  - cbn [fst snd]. replace (ex - ex') with (Zpos p) by lia.
    rewrite iter_xO. repeat split; lia.
Qed.

Lemma shl_align_up (mx : positive) (ex ex' : Z) :
  ex <= ex' -> shl_align mx ex ex' = (mx, ex).
Proof.
  intros H. unfold shl_align. destruct (ex' - ex) eqn:E; try reflexivity. lia.
Qed.

Lemma Zdigits2_mul_lower (N j : Z) :
  0 < N -> 0 <= j -> Zdigits2 N + j <= Zdigits2 (N * 2 ^ j).
Proof.
  intros HN Hj. pose proof (Zdigits2_bounds N HN) as [L _].
  pose proof (pow2_pos j Hj) as P.
  assert (0 < Zdigits2 N) by (destruct N; cbn in *; lia).
  assert (2 ^ (Zdigits2 N - 1 + j) <= N * 2 ^ j).
  { rewrite Z.pow_add_r by lia. nia. }
  pose proof (Zdigits2_lower (N * 2 ^ j) (Zdigits2 N - 1 + j) ltac:(lia) H0).
  lia.
Qed.

Lemma Zdigits2_mul_upper (N j : Z) :
  0 < N -> 0 <= j -> Zdigits2 (N * 2 ^ j) <= Zdigits2 N + j.
Proof.
  intros HN Hj. pose proof (Zdigits2_bounds N HN) as [_ U].
  pose proof (pow2_pos j Hj) as P.
  pose proof (Zdigits2_nonneg N).
  apply Zdigits2_le; try nia.
  rewrite Z.pow_add_r by lia. nia.
Qed.

(** [x + 3] for a positive finite [x]: the exact sum, aligned, then rounded. *)
Lemma SFadd_3 (m : positive) (e : Z) :
  valid_binary (S754_finite false m e) = true ->
  let ez := Z.min e (-51) in
  let N := Zpos m * 2 ^ (e - ez) + 6755399441055744 * 2 ^ (-51 - ez) in
  let es := Z.min ez (fexp64 (Zdigits2 N + ez)) in
  let K := located 1 (2 * (N * 2 ^ (ez - es))) in
  SF64add (S754_finite false m e) three = roundLocated K es
  /\ 0 <= K /\ es <= fexp64 (Zdigits2 (K / 4) + es) /\ 0 < N.
Proof.
  intros V ez N es K.
  assert (Hez : ez <= e /\ ez <= -51) by (unfold ez; lia).
  assert (HN : 0 < N).
  { unfold N. pose proof (pow2_pos (e - ez) ltac:(lia)).
    pose proof (pow2_pos (-51 - ez) ltac:(lia)). nia. }
  assert (Hes : es <= ez /\ es <= fexp64 (Zdigits2 N + ez)) by (unfold es; lia).
  set (M := N * 2 ^ (ez - es)) in *.
  assert (HM : 0 <= M).
  { unfold M. pose proof (pow2_pos (ez - es) ltac:(lia)). nia. }
  assert (HE : es <= fexp64 (Zdigits2 M + es)).
  { pose proof (Zdigits2_mul_lower N (ez - es) HN ltac:(lia)) as D.
    fold M in D. unfold fexp64 in *. lia. }
  destruct (round_exact_located M es HM HE) as [R [K0 KE]].
  split; [| split; [exact K0 | split; [exact KE | exact HN]]].
  unfold SF64add, SFadd, three. cbv zeta.
  change IntDef.Z.min with Z.min. fold ez.
  destruct (shl_align_down m e ez ltac:(lia)) as [A1 _].
  destruct (shl_align_down 6755399441055744 (-51) ez ltac:(lia)) as [A2 _].
  unfold cond_Zopp.
  set (a := fst (shl_align m e ez)) in *.
  set (b := fst (shl_align 6755399441055744 (-51) ez)) in *.
  change (IntDef.Z.add (Zpos a) (Zpos b)) with (Zpos (a + b)).
  assert (HP : Zpos (a + b) = N) by (unfold N; lia).
  unfold binary_normalize, binary_round. rewrite fexp_64.
  change (Zpos (digits2_pos (a + b))) with (Zdigits2 (Zpos (a + b))).
  rewrite HP.
  destruct (Z_lt_le_dec (fexp64 (Zdigits2 N + ez)) ez) as [C | C].
  - destruct (shl_align_down (a + b) ez (fexp64 (Zdigits2 N + ez)) ltac:(lia))
      as [B1 [B2 _]].
    destruct (shl_align (a + b) ez (fexp64 (Zdigits2 N + ez))) as [mz ez'].
    cbn [fst snd] in B1, B2. rewrite B1, (B2 C), HP.
    replace (fexp64 (Zdigits2 N + ez)) with es by (unfold es; lia).
    exact R.
  - rewrite shl_align_up by lia. rewrite HP.
    assert (Hz : es = ez) by (unfold es; lia).
    assert (HMN : N = M).
    { unfold M. replace (ez - es) with 0 by lia. change (2 ^ 0) with 1. lia. }
    rewrite <- Hz, HMN. exact R.
Qed.

Lemma SFadd_3_finite (mx : positive) (ex : Z) (my : positive) (ey : Z) :
  valid_binary (S754_finite false mx ex) = true ->
  valid_binary (S754_finite false my ey) = true ->
  SFleb (S754_finite false mx ex) (S754_finite false my ey) = true ->
  SFleb (SF64add (S754_finite false mx ex) three)
        (SF64add (S754_finite false my ey) three) = true.
Proof.
  intros Vx Vy H.
  destruct (SFadd_3 mx ex Vx) as [Ex [Kx [Cx Px]]].
  destruct (SFadd_3 my ey Vy) as [Ey [Ky [Cy Py]]].
  destruct (value_order _ _ _ _ Vx Vy H) as [Hee [Hm _]].
  rewrite Ex, Ey. clear Ex Ey.
  set (zx := Z.min ex (-51)) in *. set (zy := Z.min ey (-51)) in *.
  set (Nx := Zpos mx * 2 ^ (ex - zx) + 6755399441055744 * 2 ^ (-51 - zx)) in *.
  set (Ny := Zpos my * 2 ^ (ey - zy) + 6755399441055744 * 2 ^ (-51 - zy)) in *.
  assert (Hz : zx <= zy /\ zx <= ex /\ zy <= ey /\ zx <= -51 /\ zy <= -51)
    by (unfold zx, zy; lia).
  assert (HN : Nx <= Ny * 2 ^ (zy - zx)).
  { unfold Nx, Ny.
    assert (P1 : 2 ^ (ey - zy) * 2 ^ (zy - zx) = 2 ^ (ey - ex) * 2 ^ (ex - zx)).
    { rewrite <- !Z.pow_add_r by lia. f_equal. lia. }
    assert (P2 : 2 ^ (-51 - zy) * 2 ^ (zy - zx) = 2 ^ (-51 - zx)).
    { rewrite <- !Z.pow_add_r by lia. f_equal. lia. }
    pose proof (pow2_pos (ex - zx) ltac:(lia)) as P3.
    pose proof (Z.mul_le_mono_nonneg_r _ _ (2 ^ (ex - zx)) ltac:(lia) Hm) as P4.
    rewrite Z.mul_add_distr_r, <- !Z.mul_assoc, P1, P2.
    rewrite <- Z.mul_assoc in P4. lia. }
  assert (HG : Zdigits2 Nx + zx <= Zdigits2 Ny + zy).
  { pose proof (Zdigits2_mul_upper Ny (zy - zx) Py ltac:(lia)).
    pose proof (Zdigits2_mono Nx (Ny * 2 ^ (zy - zx)) ltac:(lia)). lia. }
  set (sx := Z.min zx (fexp64 (Zdigits2 Nx + zx))) in *.
  set (sy := Z.min zy (fexp64 (Zdigits2 Ny + zy))) in *.
  assert (Hs : sx <= sy /\ sx <= zx /\ sy <= zy)
    by (unfold sx, sy, fexp64; lia).
  clearbody sx sy. clearbody Nx Ny. clearbody zx zy.
  apply roundLocated_mono; [exact Kx | exact Ky | lia | exact Cx | exact Cy |].
  apply exact_located_le; [lia | |].
  - pose proof (pow2_pos (zy - sy) ltac:(lia)). nia.
  - apply (scaled_order Nx Ny (zx - sx) (zy - sy) (zy - zx) (sy - sx)); lia.
Qed.

Lemma tiny_three : SF64add tiny three = three.
Proof. vm_compute. reflexivity. Qed.

Lemma tiny_least (m : positive) (e : Z) :
  valid_binary (S754_finite false m e) = true ->
  SFleb tiny (S754_finite false m e) = true.
Proof.
  intros V. destruct (valid_finite _ _ _ V) as [E _].
  apply SFleb_finite. destruct (Z.eq_dec e (-1074)); [right | left]; lia.
Qed.

Lemma SFadd_3_mono (x y : spec_float) :
  valid_binary x = true -> valid_binary y = true ->
  nonnegative x = true -> SFleb x y = true ->
  nonnegative (SF64add x three) = true
  /\ SFleb (SF64add x three) (SF64add y three) = true.
Proof.
  apply (monotone_from_finite (fun z => SF64add z three)).
  - apply SFadd_3_finite.
  - intros mx ex V. destruct (SFadd_3 mx ex V) as [-> _].
    apply nonnegative_roundLocated.
  - intros [] []; reflexivity.
  - intros []; reflexivity.
  - intros s my ey V.
    change (SF64add (S754_zero s) three) with three.
    rewrite <- tiny_three at 1.
    apply SFadd_3_finite; [reflexivity | exact V | now apply tiny_least].
  - reflexivity.
Qed.

End LocatedFacts.

(** *** The radius is monotone *)

Lemma Prim2SF_is_nan (a : float) : is_nan a = true -> Prim2SF a = S754_nan.
Proof. intros H. unfold Prim2SF. now rewrite H. Qed.

Lemma is_nan_Prim2SF (a : float) : Prim2SF a = S754_nan -> is_nan a = true.
Proof.
  unfold Prim2SF. destruct (is_nan a); [reflexivity |].
  destruct (is_zero a); [discriminate |].
  destruct (is_infinity a); [discriminate |].
  repeat match goal with
         | |- context [let (_, _) := ?t in _] => destruct t
         end.
  destruct (shr_m _); discriminate.
Qed.

Lemma nonnegative_le (x y : spec_float) :
  nonnegative x = true -> SFleb x y = true -> nonnegative y = true.
Proof.
  destruct x as [[] | [] | | [] mx ex], y as [[] | [] | | [] my ey];
    try discriminate; reflexivity.
Qed.

Lemma SFleb_zero_sign (x : spec_float) (s : bool) :
  nonnegative x = true ->
  SFleb x (S754_zero s) = true -> SFleb x (S754_zero false) = true.
Proof. destruct x as [[] | [] | | [] mx ex]; auto. Qed.

(** [a || 0] keeps the order of the non-negative numbers. *)
Lemma orZero_mono (a b : number) :
  PrimFloat.leb 0 a = true -> PrimFloat.leb a b = true ->
  nonnegative (Prim2SF (orZero (Some a))) = true
  /\ SFleb (Prim2SF (orZero (Some a))) (Prim2SF (orZero (Some b))) = true.
Proof.
  rewrite !leb_spec. change (Prim2SF 0) with (S754_zero false).
  rewrite nonnegative_spec. intros Ha Hab.
  pose proof (nonnegative_le _ _ Ha Hab) as Hb.
  unfold orZero.
  destruct (falsy a) eqn:Fa.
  - split; [reflexivity |]. change (Prim2SF 0) with (S754_zero false).
    destruct (falsy b); [reflexivity |]. now apply zero_least.
  - split; [exact Ha |].
    destruct (falsy b) eqn:Fb; [| exact Hab].
    change (Prim2SF 0) with (S754_zero false).
    unfold falsy in Fb. apply orb_prop in Fb. destruct Fb as [Fb | Fb].
    + rewrite eqb_spec in Fb. change (Prim2SF 0) with (S754_zero false) in Fb.
      apply SFeqb_zero in Fb. destruct Fb as [s Hs]. rewrite Hs in Hab.
      now apply SFleb_zero_sign with s.
    + apply Prim2SF_is_nan in Fb. rewrite Fb in Hab.
      destruct (Prim2SF a) as [[] | [] | | [] mx ex]; discriminate.
Qed.

(** The radius of a claim node does not decrease when its amount grows, over
    all the non-negative numbers. *)
Lemma radius_monotone (a b : number) :
  PrimFloat.leb 0 a = true -> PrimFloat.leb a b = true ->
  PrimFloat.leb (nodeRadius (claimWithAmount a))
                (nodeRadius (claimWithAmount b)) = true.
Proof.
  intros Ha Hab. destruct (orZero_mono a b Ha Hab) as [N0 L0].
  change (nodeRadius (claimWithAmount a))
    with (PrimFloat.sqrt (orZero (Some a) / 5000) * 4 + 3)%float.
  change (nodeRadius (claimWithAmount b))
    with (PrimFloat.sqrt (orZero (Some b) / 5000) * 4 + 3)%float.
  set (x := orZero (Some a)) in *. set (y := orZero (Some b)) in *.
  clearbody x y.
  destruct (SFdiv_5000_mono _ _ (Prim2SF_valid x) (Prim2SF_valid y) N0 L0)
    as [N1 L1].
  rewrite <- Prim2SF_5000 in N1, L1.
  rewrite <- div_spec in N1. rewrite <- !div_spec in L1.
  destruct (SFsqrt_mono _ _ (Prim2SF_valid _) (Prim2SF_valid _) N1 L1)
    as [N2 L2].
  rewrite <- sqrt_spec in N2. rewrite <- !sqrt_spec in L2.
  destruct (SFmul_4_mono _ _ (Prim2SF_valid _) (Prim2SF_valid _) N2 L2)
    as [N3 L3].
  rewrite <- Prim2SF_4 in N3, L3.
  rewrite <- mul_spec in N3. rewrite <- !mul_spec in L3.
  destruct (SFadd_3_mono _ _ (Prim2SF_valid _) (Prim2SF_valid _) N3 L3)
    as [N4 L4].
  rewrite <- Prim2SF_3 in L4. rewrite <- !add_spec in L4.
  now rewrite leb_spec.
Qed.

(** A negative quotient has no square root: the radius is NaN. *)
Lemma radius_negative (a : number) :
  PrimFloat.ltb (a / 5000) 0 = true ->
  PrimFloat.is_nan (nodeRadius (claimWithAmount a)) = true.
Proof.
  intros H.
  change (nodeRadius (claimWithAmount a))
    with (PrimFloat.sqrt (orZero (Some a) / 5000) * 4 + 3)%float.
  assert (Fa : falsy a = false).
  { destruct (falsy a) eqn:Fa; [exfalso | reflexivity].
    rewrite ltb_spec, div_spec in H.
    change (Prim2SF 0) with (S754_zero false) in H.
    unfold falsy in Fa. apply orb_prop in Fa. destruct Fa as [Fa | Fa].
    - rewrite eqb_spec in Fa. change (Prim2SF 0) with (S754_zero false) in Fa.
      apply SFeqb_zero in Fa. destruct Fa as [s Hs]. rewrite Hs in H.
      destruct s; discriminate.
    - apply Prim2SF_is_nan in Fa. rewrite Fa in H. discriminate. }
  unfold orZero. rewrite Fa.
  apply is_nan_Prim2SF.
  rewrite add_spec, mul_spec, sqrt_spec.
  rewrite ltb_spec in H. change (Prim2SF 0) with (S754_zero false) in H.
  destruct (Prim2SF (a / 5000)) as [[] | [] | | [] mx ex];
    try discriminate; reflexivity.
Qed.

(** *** Whole amounts *)

Section Conversion.
Local Open Scope Z_scope.

(** A whole number converts to a non-negative double. *)
Lemma binary_normalize_nonnegative (N : Z) :
  0 <= N -> nonnegative (binary_normalize prec emax N 0 false) = true.
Proof.
  intros HN. destruct N as [| p | p]; [reflexivity | | lia].
  unfold binary_normalize, binary_round. rewrite fexp_64.
  change (Zpos (digits2_pos p)) with (Zdigits2 (Zpos p)).
  set (F := fexp64 (Zdigits2 (Zpos p) + 0)).
  destruct (Z_lt_le_dec F 0) as [C | C].
  - destruct (shl_align_down p 0 F ltac:(lia)) as [B1 [B2 _]].
    destruct (shl_align p 0 F) as [mz ez]. cbn [fst snd] in B1, B2.
    rewrite B1, (B2 C).
    assert (HE : F <= fexp64 (Zdigits2 (Zpos p * 2 ^ (0 - F)) + F)).
    { pose proof (Zdigits2_mul_lower (Zpos p) (0 - F) ltac:(lia) ltac:(lia)).
      unfold F, fexp64 in *. lia. }
    assert (H0 : 0 <= Zpos p * 2 ^ (0 - F)).
    { pose proof (pow2_pos (0 - F) ltac:(lia)). nia. }
    destruct (round_exact_located _ _ H0 HE) as [-> _].
    apply nonnegative_roundLocated.
  - rewrite shl_align_up by lia.
    destruct (round_exact_located (Zpos p) 0 ltac:(lia) C) as [-> _].
    apply nonnegative_roundLocated.
Qed.

End Conversion.

Lemma amountOfZ_nonnegative (n : Z) : PrimFloat.leb 0 (amountOfZ n) = true.
Proof.
  rewrite leb_spec. change (Prim2SF 0) with (S754_zero false).
  rewrite nonnegative_spec. unfold amountOfZ. rewrite of_uint63_spec.
  apply binary_normalize_nonnegative. apply Uint63.to_Z_bounded.
Qed.

Lemma SFleb_ltb_trans (x y z : spec_float) :
  SFleb x y = true -> SFltb y z = true -> SFltb x z = true.
Proof.
  order_by_cases x y z.
Qed.

Lemma SFltb_leb_trans (x y z : spec_float) :
  SFltb x y = true -> SFleb y z = true -> SFltb x z = true.
Proof.
  order_by_cases x y z.
Qed.

(** Two amounts with two whole amounts up to 1,000,000 between them get
    radii that differ. *)
Lemma radius_strict_between (a b : number) (n m : Z) :
  (0 <= n < m)%Z -> (m <= 1000000)%Z ->
  PrimFloat.leb 0 a = true ->
  PrimFloat.leb a (amountOfZ n) = true ->
  PrimFloat.leb (amountOfZ m) b = true ->
  PrimFloat.ltb (nodeRadius (claimWithAmount a))
                (nodeRadius (claimWithAmount b)) = true.
Proof.
  intros Hnm Hm Ha Han Hmb.
  pose proof (radius_monotone a (amountOfZ n) Ha Han) as L1.
  pose proof (radius_whole_amounts Hnm Hm) as L2.
  pose proof (radius_monotone (amountOfZ m) b (amountOfZ_nonnegative m) Hmb)
    as L3.
  rewrite leb_spec in L1, L3. rewrite ltb_spec in *.
  eapply SFleb_ltb_trans; [exact L1 |].
  eapply SFltb_leb_trans; [exact L2 | exact L3].
Qed.

(** A quotient that is zero (of either sign) gives the radius 3. *)
Lemma radius_zero_quotient (a : number) :
  PrimFloat.eqb (a / 5000) 0 = true ->
  nodeRadius (claimWithAmount a) = 3%float.
Proof.
  intros H.
  change (nodeRadius (claimWithAmount a))
    with (PrimFloat.sqrt (orZero (Some a) / 5000) * 4 + 3)%float.
  unfold orZero. destruct (falsy a); [reflexivity |].
  rewrite eqb_spec in H. change (Prim2SF 0) with (S754_zero false) in H.
  apply SFeqb_zero in H. destruct H as [s Hs].
  apply Prim2SF_inj. rewrite add_spec, mul_spec, sqrt_spec, Hs.
  destruct s; reflexivity.
Qed.

Set Implicit Arguments.

Lemma nodeRadius_claim (d : ClaimNode) (a : number) :
  type d = claim -> claimAmount d = Some a ->
  nodeRadius d = nodeRadius (claimWithAmount a).
Proof. intros Ht Ha. unfold nodeRadius. now rewrite Ht, Ha. Qed.




(* ================================================================== *)
(** * Further properties *)

(** ** The node set as a whole *)

Lemma ids_finalNodeMap (objs : list ClaimRecord) :
  map id (JsMap.values (finalNodeMap objs))
  = (map (String.append "claim-") (JsSet.ofArray (primaryKeys (capped objs)))
     ++ map phNodeId (policyholderIds objs))
    ++ map agentNodeId sampleAgents.
Proof.
  rewrite <- keys_ids by apply finalNodeMap_keyed.
  rewrite finalNodeMap_eq. unfold JsMap.keys at 1.
  rewrite !map_app, !map_map. cbn [fst policyholderEntry agentEntry].
  fold (JsMap.keys (addClaims objs JsMap.empty)).
  now rewrite keys_addClaims, claimKeys_ofArray.
Qed.

Lemma NoDup_map_prefix (p : string) (l : list string) :
  NoDup l -> NoDup (map (String.append p) l).
Proof.
  apply Injective_map_NoDup. intros a b H. eapply prefix_inj, H.
Qed.

Lemma NoDup_ids_finalNodeMap (objs : list ClaimRecord) :
  NoDup (map id (JsMap.values (finalNodeMap objs))).
Proof.
  rewrite ids_finalNodeMap.
  apply NoDup_app; [apply NoDup_app | |].
  - apply NoDup_map_prefix, JsSetFacts.NoDup_ofArray.
  - apply (NoDup_map_prefix "ph-"), JsSetFacts.NoDup_ofArray.
  - intros k H1 H2. apply in_map_iff in H1. destruct H1 as [a [<- _]].
    apply in_map_iff in H2. destruct H2 as [b [Hb _]]. discriminate Hb.
  - apply (NoDup_map_prefix "agent-"), NoDup_sampleAgents.
  - intros k H1 H2. apply in_map_iff in H2. destruct H2 as [b [<- _]].
    apply in_app_or in H1. destruct H1 as [H1 | H1];
      apply in_map_iff in H1; destruct H1 as [a [Ha _]]; discriminate Ha.
Qed.

Lemma NoDup_ids_graph (claims : option ObjectSet) :
  NoDup (map id (nodes (buildGraphData claims))).
Proof.
  rewrite buildGraphData_records.
  destruct (records claims) as [| c objs]; [constructor |].
  apply NoDup_ids_finalNodeMap.
Qed.

(** A node of the graph is determined by its id. *)
Lemma node_of_id (claims : option ObjectSet) (n n' : ClaimNode) :
  In n (nodes (buildGraphData claims)) ->
  In n' (nodes (buildGraphData claims)) ->
  id n = id n' -> n = n'.
Proof.
  pose proof (NoDup_ids_graph claims) as Hnd.
  revert Hnd. generalize (nodes (buildGraphData claims)) as l.
  induction l as [| a l IH]; intros Hnd Hn Hn' Hid; [contradiction |].
  simpl in Hnd. inversion Hnd as [| ? ? Ha Hl]; subst.
  destruct Hn as [-> | Hn], Hn' as [-> | Hn']; auto.
  - exfalso. apply Ha. rewrite Hid. now apply in_map.
  - exfalso. apply Ha. rewrite <- Hid. now apply in_map.
Qed.

(** X1.  Node identifiers are pairwise distinct over the whole graph, claim,
    policyholder and agent nodes together, so an id names at most one
    node. *)
Theorem node_ids_unique (claims : option ObjectSet) :
  let g := buildGraphData claims in
  NoDup (map id (nodes g))
  /\ (forall n n', In n (nodes g) -> In n' (nodes g) ->
                   id n = id n' -> n = n').
Proof.
  intro g. split; [apply NoDup_ids_graph |].
  intros n n'. apply node_of_id.
Qed.

Lemma nodes_split (claims : option ObjectSet) :
  let g := buildGraphData claims in
  nodes g
  = nodesOfType claim g ++ nodesOfType policyholder g ++ nodesOfType agent g.
Proof.
  intro g. unfold g. rewrite !nodesOfType_records, buildGraphData_records.
  destruct (records claims) as [| c objs]; [reflexivity |].
  cbn [nodes]. rewrite values_finalNodeMap. now rewrite <- app_assoc.
Qed.

(** X2.  The node array lists the claim nodes first, then the policyholder
    nodes, then the agent nodes. *)
Theorem nodes_by_type (claims : option ObjectSet) :
  let g := buildGraphData claims in
  nodes g
  = nodesOfType claim g ++ nodesOfType policyholder g ++ nodesOfType agent g.
Proof. apply nodes_split. Qed.

Lemma length_nodup_capped_le (f : ClaimRecord -> string) (objs : list ClaimRecord) :
  List.length (nodup string_dec (map f (capped objs))) <= 200.
Proof.
  eapply Nat.le_trans; [apply length_nodup_le |].
  rewrite length_map, length_capped. apply Nat.le_min_r.
Qed.

Lemma graph_size_capped (claims : option ObjectSet) :
  let g := buildGraphData claims in
  let rs := capped (records claims) in
  List.length (nodes g)
  = match records claims with
    | [] => 0
    | _ :: _ =>
        List.length (nodup string_dec (primaryKeys rs))
        + List.length (nodup string_dec (policyholderIdsOf rs)) + 3
    end
  /\ List.length (nodes g) <= 403
  /\ List.length (links g) <= 200
  /\ List.length (nodesOfType claim g) <= List.length (links g)
  /\ List.length (nodesOfType policyholder g) <= List.length (links g).
Proof.
  intros g rs.
  assert (Hl : List.length (links g) = List.length rs).
  { unfold g, rs. rewrite links_records.
    destruct (records claims) as [| c objs]; [reflexivity |].
    rewrite createLinks_final. apply length_map. }
  assert (Hc : List.length (nodesOfType claim g)
               = match records claims with
                 | [] => 0
                 | _ :: _ => List.length (nodup string_dec (primaryKeys rs))
                 end).
  { unfold g, rs. rewrite nodesOfType_records.
    destruct (records claims) as [| c objs]; [reflexivity |].
    apply length_addClaims. }
  assert (Hp : List.length (nodesOfType policyholder g)
               = match records claims with
                 | [] => 0
                 | _ :: _ => List.length (nodup string_dec (policyholderIdsOf rs))
                 end).
  { unfold g, rs. rewrite nodesOfType_records.
    destruct (records claims) as [| c objs]; [reflexivity |].
    rewrite length_map. apply JsSetFacts.length_ofArray. }
  assert (Ha : List.length (nodesOfType agent g)
               = match records claims with [] => 0 | _ :: _ => 3 end).
  { unfold g. rewrite nodesOfType_records.
    destruct (records claims); reflexivity. }
  assert (Hn : List.length (nodes g)
               = List.length (nodesOfType claim g)
                 + List.length (nodesOfType policyholder g)
                 + List.length (nodesOfType agent g)).
  { unfold g at 1. rewrite nodes_split. rewrite !length_app. fold g. lia. }
  pose proof (length_nodup_capped_le rec_primaryKey (records claims)) as B1.
  pose proof (length_nodup_capped_le
                (fun c => prop_policyholderId (properties c)) (records claims))
    as B2.
  pose proof (length_nodup_le (primaryKeys rs)) as B3.
  pose proof (length_nodup_le (policyholderIdsOf rs)) as B4.
  assert (B5 : List.length rs <= 200).
  { unfold rs. rewrite length_capped. apply Nat.le_min_r. }
  unfold primaryKeys, policyholderIdsOf in *. fold rs in B1, B2.
  rewrite !length_map in B3, B4.
  rewrite Hn, Hc, Hp, Ha, Hl.
  destruct (records claims); repeat split; lia.
Qed.

(** X3.  A non-empty input gives one node per distinct primaryKey, one per
    distinct policyholderId and three agents; so a graph never has more than
    403 nodes or 200 edges, and never more claim nodes or policyholder nodes
    than edges. *)
Theorem graph_size (claims : option ObjectSet) :
  let g := buildGraphData claims in
  let rs := firstn 200 (records claims) in
  List.length (nodes g)
  = match records claims with
    | [] => 0
    | _ :: _ =>
        List.length (nodup string_dec (map rec_primaryKey rs))
        + List.length
            (nodup string_dec
                   (map (fun c => prop_policyholderId (properties c)) rs))
        + 3
    end
  /\ List.length (nodes g) <= 403
  /\ List.length (links g) <= 200
  /\ List.length (nodesOfType claim g) <= List.length (links g)
  /\ List.length (nodesOfType policyholder g) <= List.length (links g).
Proof. exact (graph_size_capped claims). Qed.

(** ** Only the first 200 records matter *)

Lemma capped_idem (objs : list ClaimRecord) : capped (capped objs) = capped objs.
Proof. unfold capped. rewrite firstn_firstn. reflexivity. Qed.

Lemma finalNodeMap_capped (objs : list ClaimRecord) :
  finalNodeMap (capped objs) = finalNodeMap objs.
Proof.
  rewrite !finalNodeMap_eq. unfold addClaims, policyholderIds.
  now rewrite capped_idem.
Qed.

Lemma capped_nil_iff (objs : list ClaimRecord) : capped objs = [] <-> objs = [].
Proof. destruct objs; split; intro H; try reflexivity; discriminate H. Qed.

Lemma buildGraphData_capped (claims : option ObjectSet) :
  buildGraphData claims = buildGraphData (claimsOf (capped (records claims))).
Proof.
  rewrite !buildGraphData_records. cbn [records claimsOf].
  destruct (records claims) as [| c objs] eqn:E; [reflexivity |].
  destruct (capped (c :: objs)) as [| c' objs'] eqn:Ec.
  - apply capped_nil_iff in Ec. discriminate Ec.
  - rewrite <- Ec. rewrite finalNodeMap_capped.
    unfold createLinks. now rewrite capped_idem.
Qed.

(** X4.  The graph depends on the first 200 records only: two inputs that
    agree on them give the same graph, although step 2 searches the whole
    array for a sample claim. *)
Theorem graph_depends_on_first_200 (claims1 claims2 : option ObjectSet) :
  capped (records claims1) = capped (records claims2) ->
  buildGraphData claims1 = buildGraphData claims2.
Proof.
  intro H. rewrite (buildGraphData_capped claims1), (buildGraphData_capped claims2).
  now rewrite H.
Qed.

(** ** Edges against nodes *)

Lemma claimNodes_from_records (l : list ClaimRecord) :
  forall m : NodeMap,
    Forall (fun e => exists c, In c l /\ e = (claimNodeId c, claimNode c)) m ->
    Forall (fun e => exists c, In c l /\ e = (claimNodeId c, claimNode c))
           (fold_left setClaim l m).
Proof.
  assert (G : forall (l0 l : list ClaimRecord) (m : NodeMap),
             incl l l0 ->
             Forall (fun e => exists c, In c l0 /\ e = (claimNodeId c, claimNode c)) m ->
             Forall (fun e => exists c, In c l0 /\ e = (claimNodeId c, claimNode c))
                    (fold_left setClaim l m)).
  { intros l0 l1. induction l1 as [| c l1 IH]; intros m Hincl Hm; simpl.
    - exact Hm.
    - apply IH; [intros x Hx; apply Hincl; now right |].
      unfold setClaim. cbv zeta. apply JsMapFacts.Forall_set; [| exact Hm].
      exists c. split; [apply Hincl; now left | reflexivity]. }
  intros m Hm. apply G; [apply incl_refl | exact Hm].
Qed.

(** Every claim node is the node of one of the capped records. *)
Lemma claim_node_origin (objs : list ClaimRecord) (n : ClaimNode) :
  In n (JsMap.values (addClaims objs JsMap.empty)) ->
  exists c, In c (capped objs) /\ n = claimNode c.
Proof.
  intro Hn. apply in_map_iff in Hn. destruct Hn as [e [<- He]].
  pose proof (claimNodes_from_records (capped objs) (m := JsMap.empty)
                (Forall_nil _)) as HF.
  rewrite Forall_forall in HF. destruct (HF e He) as [c [Hc ->]].
  exists c. split; [exact Hc | reflexivity].
Qed.

(** X5.  Every edge runs from a claim node to a policyholder node of the
    graph, and each endpoint names exactly one node. *)
Theorem links_typed (claims : option ObjectSet) :
  let g := buildGraphData claims in
  Forall (fun l =>
            (exists n, In n (nodesOfType claim g) /\ id n = source l)
            /\ (exists n, In n (nodesOfType policyholder g) /\ id n = target l)
            /\ (forall n n', In n (nodes g) -> In n' (nodes g) ->
                  id n = id n' -> n = n'))
         (links g).
Proof.
  intro g.
  assert (Huniq : forall n n', In n (nodes g) -> In n' (nodes g) ->
                               id n = id n' -> n = n').
  { intros n n'. apply node_of_id. }
  unfold g in *. rewrite links_records, !nodesOfType_records.
  destruct (records claims) as [| c0 objs] eqn:E; [constructor |].
  rewrite createLinks_final. apply Forall_forall. intros l Hl.
  apply in_map_iff in Hl. destruct Hl as [c [<- Hc]].
  split; [| split; [| exact Huniq]].
  - assert (Hk : In (claimNodeId c)
                   (map id (JsMap.values (addClaims (c0 :: objs) JsMap.empty)))).
    { rewrite <- keys_ids by apply addClaims_keyed.
      rewrite keys_addClaims. apply JsSetFacts.In_ofArray. now apply in_map. }
    apply in_map_iff in Hk. destruct Hk as [n [Hid Hn]].
    exists n. split; [exact Hn | exact Hid].
  - exists (echoPolicyholder (prop_policyholderId (properties c))).
    split; [| reflexivity].
    apply in_map. unfold policyholderIds. apply JsSetFacts.In_ofArray.
    now apply (in_map (fun c => prop_policyholderId (properties c))).
Qed.

(** X6.  No claim node and no policyholder node is isolated: every claim node
    has an edge to the policyholder its own [policyholderId] names, and every
    policyholder node is the target of an edge. *)
Theorem claim_and_policyholder_nodes_linked (claims : option ObjectSet) :
  let g := buildGraphData claims in
  Forall (fun n => exists l phId,
              In l (links g) /\ source l = id n
              /\ policyholderId n = Some phId
              /\ target l = ("ph-" ++ phId)%string)
         (nodesOfType claim g)
  /\ Forall (fun n => exists l, In l (links g) /\ target l = id n)
            (nodesOfType policyholder g).
Proof.
  intro g. unfold g. rewrite links_records, !nodesOfType_records.
  destruct (records claims) as [| c0 objs] eqn:E; [split; constructor |].
  rewrite createLinks_final. split; apply Forall_forall; intros n Hn.
  - destruct (claim_node_origin _ _ Hn) as [c [Hc ->]].
    exists (linkOf c), (prop_policyholderId (properties c)).
    repeat split. now apply in_map.
  - apply in_map_iff in Hn. destruct Hn as [phId [<- Hph]].
    unfold policyholderIds in Hph. rewrite JsSetFacts.In_ofArray in Hph.
    apply in_map_iff in Hph. destruct Hph as [c [<- Hc]].
    exists (linkOf c). split; [now apply in_map | reflexivity].
Qed.

Lemma graph_depends_on_first_200_witness :
  capped (records (claimsOf (repeat (sampleRecord "C-1" "P-1") 200
                             ++ [sampleRecord "C-2" "P-2"])))
  = capped (records (claimsOf (repeat (sampleRecord "C-1" "P-1") 200)))
  /\ buildGraphData (claimsOf (repeat (sampleRecord "C-1" "P-1") 200
                               ++ [sampleRecord "C-2" "P-2"]))
     = buildGraphData (claimsOf (repeat (sampleRecord "C-1" "P-1") 200)).
Proof.
  assert (H : capped (records (claimsOf (repeat (sampleRecord "C-1" "P-1") 200
                                         ++ [sampleRecord "C-2" "P-2"])))
              = capped (records (claimsOf (repeat (sampleRecord "C-1" "P-1") 200))))
    by reflexivity.
  split; [exact H |].
  exact (graph_depends_on_first_200 _ _ H).
Defined.

(** ** The agent ids collected in step 3 *)

Lemma fold_agentIds_none (l : list ClaimNode) (s : JsSet.t) :
  Forall (fun n => agentId n = None) l ->
  fold_left (fun s n =>
               match agentId n with
               | Some a => if String.eqb a "" then s else JsSet.add a s
               | None => s
               end) l s = s.
Proof.
  induction 1 as [| n l Hn Hl IH]; simpl; [reflexivity |].
  now rewrite Hn.
Qed.

(** X7.  The set of agent ids that step 3 collects from the node map is
    always empty: at that point the map holds claim and policyholder nodes
    only, and neither carries an [agentId]. *)
Theorem agentIds_always_empty (objs : list ClaimRecord) :
  agentIds (addPolicyholders objs (addClaims objs JsMap.empty)) = [].
Proof.
  unfold agentIds. apply fold_agentIds_none.
  rewrite addPolicyholders_app by apply addClaims_claimEntry.
  unfold JsMap.values. rewrite map_app, map_map. apply Forall_app. split.
  - apply Forall_forall. intros n Hn.
    destruct (claim_node_origin objs n Hn) as [c [_ ->]]. reflexivity.
  - now apply Forall_map_const.
Qed.

(** ** Distinct primary keys *)

Lemma fold_setClaim_fresh (l : list ClaimRecord) :
  forall m : NodeMap,
    NoDup (map claimNodeId l) ->
    (forall c, In c l -> ~ In (claimNodeId c) (JsMap.keys m)) ->
    fold_left setClaim l m = m ++ map (fun c => (claimNodeId c, claimNode c)) l.
Proof.
  induction l as [| c l IH]; intros m Hnd Hnew; simpl.
  - now rewrite app_nil_r.
  - inversion Hnd as [| ? ? Hc Hl]; subst.
    assert (Hhas : JsMap.has (claimNodeId c) m = false).
    { apply JsMapFacts.has_key_false, Hnew. now left. }
    unfold setClaim at 2. cbv zeta. cbn [id claimNode].
    rewrite JsMapFacts.set_new by exact Hhas.
    rewrite IH.
    + now rewrite <- app_assoc.
    + exact Hl.
    + intros c' Hc'. unfold JsMap.keys. rewrite map_app, in_app_iff.
      intros [H | [H | []]].
      * apply (Hnew c'); [now right | exact H].
      * simpl in H. apply Hc. rewrite H. now apply in_map.
Qed.

Lemma claim_nodes_of_distinct (claims : option ObjectSet) :
  NoDup (primaryKeys (capped (records claims))) ->
  nodesOfType claim (buildGraphData claims)
  = map claimNode (capped (records claims)).
Proof.
  intro Hnd. rewrite nodesOfType_records.
  destruct (records claims) as [| c0 objs] eqn:E; [reflexivity |].
  unfold addClaims. rewrite fold_setClaim_fresh.
  - unfold JsMap.values, JsMap.empty. rewrite app_nil_l, map_map. reflexivity.
  - unfold primaryKeys in Hnd.
    replace (map claimNodeId (capped (c0 :: objs)))
      with (map (String.append "claim-") (map rec_primaryKey (capped (c0 :: objs))))
      by (rewrite map_map; reflexivity).
    apply Injective_map_NoDup; [| exact Hnd].
    intros a b H. eapply prefix_inj, H.
  - intros c _ H. exact H.
Qed.

(** X8.  When the first 200 records have pairwise distinct primaryKeys, the
    claim nodes are the nodes of those records, one each and in input
    order. *)
Theorem claim_nodes_distinct_keys (claims : option ObjectSet) :
  NoDup (primaryKeys (capped (records claims))) ->
  nodesOfType claim (buildGraphData claims)
  = map claimNode (capped (records claims)).
Proof. apply claim_nodes_of_distinct. Qed.

Lemma claim_nodes_distinct_keys_witness :
  NoDup (primaryKeys
           (capped (records (claimsOf [sampleRecord "C-1" "P-1";
                                       sampleRecord "C-2" "P-1"]))))
  /\ nodesOfType claim
       (buildGraphData (claimsOf [sampleRecord "C-1" "P-1";
                                  sampleRecord "C-2" "P-1"]))
     = [claimNode (sampleRecord "C-1" "P-1");
        claimNode (sampleRecord "C-2" "P-1")].
Proof.
  assert (H : NoDup (primaryKeys
                       (capped (records (claimsOf [sampleRecord "C-1" "P-1";
                                                   sampleRecord "C-2" "P-1"]))))).
  { repeat constructor; simpl; intuition discriminate. }
  split; [exact H |].
  exact (claim_nodes_distinct_keys _ H).
Defined.

(** ** Styling and clicks on the nodes of a graph *)

(** X9.  In every graph the builder returns, each policyholder node is drawn
    amber with radius 8 and each agent node blue with radius 12; the green
    policyholder colour is never used. *)
Theorem built_nodes_styling (claims : option ObjectSet) :
  let g := buildGraphData claims in
  Forall (fun n => nodeColor n = "#ff8800" /\ nodeRadius n = 8%float)
         (nodesOfType policyholder g)
  /\ Forall (fun n => nodeColor n = "#1976d2" /\ nodeRadius n = 12%float)
            (nodesOfType agent g)
  /\ Forall (fun n => nodeColor n <> "#66bb6a") (nodes g).
Proof.
  intro g.
  assert (Hp : Forall (fun n => nodeColor n = "#ff8800" /\ nodeRadius n = 8%float)
                      (nodesOfType policyholder g)).
  { unfold g. rewrite nodesOfType_records.
    destruct (records claims); [constructor |].
    apply Forall_map_const. intro x. split; reflexivity. }
  assert (Ha : Forall (fun n => nodeColor n = "#1976d2" /\ nodeRadius n = 12%float)
                      (nodesOfType agent g)).
  { unfold g. rewrite nodesOfType_records.
    destruct (records claims); [constructor |].
    apply Forall_map_const. intro x. split; reflexivity. }
  split; [exact Hp | split; [exact Ha |]].
  unfold g at 1. rewrite nodes_split. fold g.
  rewrite !Forall_app. repeat split.
  - apply Forall_forall. intros n Hn. unfold nodesOfType in Hn.
    apply filter_In in Hn. destruct Hn as [_ Ht].
    unfold nodeColor. destruct (type n); try discriminate Ht.
    cbv zeta. destruct (gt _ _); [discriminate |].
    destruct (gt _ _); discriminate.
  - eapply Forall_impl; [| exact Hp]. intros n [-> _]. discriminate.
  - eapply Forall_impl; [| exact Ha]. intros n [-> _]. discriminate.
Qed.

(** X10.  A click on any node of a graph makes at most one call to the host;
    a [flagSuspicious] call carries the primaryKey of one of the first 200
    records, and an [investigateCluster] call one of the three sample agent
    ids. *)
Theorem built_nodes_click (claims : option ObjectSet) :
  let g := buildGraphData claims in
  Forall (fun n =>
            List.length (handleNodeClick recordingEvents n []) <= 1
            /\ Forall (fun call =>
                         match call with
                         | FlagSuspicious p =>
                             In (payload_claimId p)
                                (primaryKeys (capped (records claims)))
                         | InvestigateCluster p =>
                             exists a, In a sampleAgents
                                       /\ payload_agentId p = Some a
                         end)
                      (handleNodeClick recordingEvents n []))
         (nodes g).
Proof.
  intro g. unfold g at 1. rewrite nodes_split. unfold g.
  rewrite !nodesOfType_records.
  destruct (records claims) as [| c0 objs] eqn:E; [constructor |].
  rewrite !Forall_app. repeat split.
  - apply Forall_forall. intros n Hn.
    destruct (claim_node_origin _ n Hn) as [c [Hc ->]].
    change (handleNodeClick recordingEvents (claimNode c) [])
      with [FlagSuspicious {| payload_claimId := rec_primaryKey c |}].
    split; [apply Nat.le_refl |]. constructor; [| constructor].
    cbn [payload_claimId]. now apply (in_map rec_primaryKey).
  - apply Forall_map_const. intro x.
    change (handleNodeClick recordingEvents (echoPolicyholder x) [])
      with (@nil HostCall).
    split; [apply Nat.le_0_l | constructor].
  - apply Forall_forall. intros n Hn. apply in_map_iff in Hn.
    destruct Hn as [a [<- Ha]].
    change (handleNodeClick recordingEvents (agentNode a) [])
      with [InvestigateCluster {| payload_agentId := Some a |}].
    split; [apply Nat.le_refl |]. constructor; [| constructor].
    exists a. split; [exact Ha | reflexivity].
Qed.

(** ** Node labels *)

Lemma sliceLast4_suffix (units : list N) :
  exists p : list N,
    units = p ++ sliceLast4 units
    /\ List.length (sliceLast4 units) = Nat.min 4 (List.length units).
Proof.
  unfold sliceLast4. exists (firstn (List.length units - 4) units). split.
  - symmetry. apply firstn_skipn.
  - rewrite length_skipn. lia.
Qed.

(** A string of ASCII characters has one code unit per character. *)
Lemma codeUnits_ascii (s : string) :
  Forall (fun c => (N_of_ascii c < 128)%N) (list_ascii_of_string s) ->
  codeUnits s = map N_of_ascii (list_ascii_of_string s).
Proof.
  induction s as [| c s IH]; intro H; [reflexivity |].
  change (list_ascii_of_string (String c s))
    with (c :: list_ascii_of_string s) in *.
  apply Forall_cons_iff in H. destruct H as [Hc Hs].
  apply N.ltb_lt in Hc.
  cbn [codeUnits map]. cbv zeta. rewrite Hc. f_equal. exact (IH Hs).
Qed.

(** X11.  In every graph the builder returns, a claim node has no label, an
    agent node is labelled with its agent id, and a policyholder node with
    the last four UTF-16 code units of its policyholder id (the whole id when
    it has fewer). *)
Theorem built_nodes_labels (claims : option ObjectSet) :
  let g := buildGraphData claims in
  Forall (fun n => nodeLabel n = []) (nodesOfType claim g)
  /\ Forall (fun n =>
               exists a, agentId n = Some a /\ nodeLabel n = codeUnits a)
            (nodesOfType agent g)
  /\ Forall (fun n =>
               exists phId p,
                 policyholderId n = Some phId
                 /\ codeUnits phId = p ++ nodeLabel n
                 /\ List.length (nodeLabel n)
                    = Nat.min 4 (List.length (codeUnits phId)))
            (nodesOfType policyholder g).
Proof.
  intro g. unfold g. rewrite !nodesOfType_records.
  destruct (records claims) as [| c0 objs]; [repeat split; constructor |].
  repeat split.
  - apply Forall_forall. intros n Hn.
    destruct (claim_node_origin _ n Hn) as [c [_ ->]]. reflexivity.
  - apply Forall_map_const. intro a. exists a. split; reflexivity.
  - apply Forall_map_const. intro phId.
    destruct (sliceLast4_suffix (codeUnits phId)) as [p [Hp Hl]].
    exists phId, p. repeat split; assumption.
Qed.

(** Ids outside ASCII: the label of ["PH-日本語1"] is the four characters
    ["日本語1"], and a character outside the basic plane counts as two code
    units, so a label can start with the second half of one. *)
Lemma nodeLabel_non_ascii :
  nodeLabel (echoPolicyholder "PH-日本語1") = codeUnits "日本語1"
  /\ codeUnits "日本語1" = [26085; 26412; 35486; 49]%N
  /\ nodeLabel (echoPolicyholder "日本") = codeUnits "日本"
  /\ codeUnits "😀" = [55357; 56832]%N
  /\ nodeLabel (echoPolicyholder "A😀BCD") = [56832; 66; 67; 68]%N.
Proof. repeat split. Qed.

(** ** Drag gestures *)

Lemma dragMoves_heat (moves : list DragEvent) (s : Heat * Position) :
  fst (dragMoves moves s) = fst s.
Proof.
  unfold dragMoves. revert s.
  induction moves as [| e moves IH]; intro s; simpl; [reflexivity |].
  rewrite IH. now destruct s.
Qed.

Lemma dragMoves_xy (moves : list DragEvent) (s : Heat * Position) :
  pos_x (snd (dragMoves moves s)) = pos_x (snd s)
  /\ pos_y (snd (dragMoves moves s)) = pos_y (snd s).
Proof.
  unfold dragMoves. revert s.
  induction moves as [| e moves IH]; intro s; simpl; [now split |].
  destruct (IH (dragged e s)) as [Hx Hy].
  rewrite Hx, Hy. now destruct s.
Qed.

Lemma last_cons (A : Type) (a d : A) (l : list A) :
  last (a :: l) d = last l a.
Proof.
  revert a d. induction l as [| b l IH]; intros a d; [reflexivity |].
  change (last (a :: b :: l) d) with (last (b :: l) d).
  now rewrite !IH.
Qed.

(** During the moves the pin is at the latest event, or where the moves
    found it when there was none. *)
Lemma dragMoves_pin (moves : list DragEvent) (s : Heat * Position) :
  pos_fx (snd (dragMoves moves s))
  = last (map (fun e => Some (event_x e)) moves) (pos_fx (snd s))
  /\ pos_fy (snd (dragMoves moves s))
     = last (map (fun e => Some (event_y e)) moves) (pos_fy (snd s)).
Proof.
  unfold dragMoves. revert s.
  induction moves as [| e moves IH]; intro s; [now split |].
  cbn [fold_left map]. rewrite !last_cons.
  destruct (IH (dragged e s)) as [Hx Hy]. rewrite Hx, Hy.
  now destruct s.
Qed.

Lemma dragended_position (finish : DragEvent) (s : Heat * Position) :
  snd (dragended finish s)
  = {| pos_x := pos_x (snd s); pos_y := pos_y (snd s);
       pos_fx := None; pos_fy := None |}.
Proof. now destruct s. Qed.

Lemma dragstarted_position (start : DragEvent) (s : Heat * Position) :
  snd (dragstarted start s)
  = {| pos_x := pos_x (snd s); pos_y := pos_y (snd s);
       pos_fx := pos_x (snd s); pos_fy := pos_y (snd s) |}.
Proof. now destruct s. Qed.

(** X12.  While a node is dragged it is pinned where the latest drag
    event is (at its own position before the first one); when the gesture
    ends the pin is released; and the handlers never write the node's own
    position [x], [y]. *)
Theorem drag_pins_then_releases (start finish : DragEvent)
  (moves : list DragEvent) (s : Heat * Position) :
  let pinned := dragMoves moves (dragstarted start s) in
  let released := dragGesture start moves finish s in
  pos_fx (snd pinned)
  = last (map (fun e => Some (event_x e)) moves) (pos_x (snd s))
  /\ pos_fy (snd pinned)
     = last (map (fun e => Some (event_y e)) moves) (pos_y (snd s))
  /\ pos_fx (snd released) = None
  /\ pos_fy (snd released) = None
  /\ pos_x (snd released) = pos_x (snd s)
  /\ pos_y (snd released) = pos_y (snd s).
Proof.
  intros pinned released.
  destruct (dragMoves_pin moves (dragstarted start s)) as [Hfx Hfy].
  destruct (dragMoves_xy moves (dragstarted start s)) as [Hx Hy].
  rewrite dragstarted_position in Hfx, Hfy, Hx, Hy.
  cbn [pos_x pos_y pos_fx pos_fy] in Hfx, Hfy, Hx, Hy.
  unfold released, dragGesture. rewrite dragended_position.
  cbn [pos_x pos_y pos_fx pos_fy].
  repeat split; assumption.
Qed.

(** X13.  A gesture that starts and ends with no other gesture active
    ([event.active] is 0) leaves the simulation running with alpha target 0,
    having held it at 0.3 while the node was dragged; a gesture that starts
    and ends while another one is active leaves the simulation as it was. *)
Theorem drag_heat (start finish : DragEvent) (moves : list DragEvent)
  (s : Heat * Position) :
  (falsy (active start) = true ->
   fst (dragMoves moves (dragstarted start s))
   = {| alphaTarget := alphaHot; running := true |})
  /\ (falsy (active start) = true -> falsy (active finish) = true ->
      fst (dragGesture start moves finish s)
      = {| alphaTarget := 0%float; running := true |})
  /\ (falsy (active start) = false -> falsy (active finish) = false ->
      fst (dragGesture start moves finish s) = fst s).
Proof.
  assert (Hend : forall st, fst (dragended finish st)
                            = if falsy (active finish)
                              then setAlphaTarget 0%float (fst st)
                              else fst st).
  { intros [h d]. simpl. now destruct (falsy (active finish)). }
  assert (Hstart : fst (dragstarted start s)
                   = if falsy (active start)
                     then restart (setAlphaTarget alphaHot (fst s))
                     else fst s).
  { destruct s as [h d]. simpl. now destruct (falsy (active start)). }
  repeat split.
  - intro H1. rewrite dragMoves_heat, Hstart, H1. reflexivity.
  - intros H1 H2. unfold dragGesture.
    rewrite Hend, H2, dragMoves_heat, Hstart, H1. reflexivity.
  - intros H1 H2. unfold dragGesture.
    rewrite Hend, H2, dragMoves_heat, Hstart, H1. reflexivity.
Qed.

Lemma drag_heat_witness :
  let quiet := {| active := 0%float; event_x := 10%float; event_y := 20%float |} in
  let s := ({| alphaTarget := 0%float; running := false |},
            {| pos_x := Some 1%float; pos_y := Some 2%float;
               pos_fx := None; pos_fy := None |}) in
  falsy (active quiet) = true
  /\ fst (dragGesture quiet [quiet] quiet s)
     = {| alphaTarget := 0%float; running := true |}.
Proof.
  intros quiet s. split; [reflexivity |].
  destruct (drag_heat quiet quiet [quiet] s) as [_ [H _]].
  apply H; reflexivity.
Defined.

(** ** What the effect does past its guard *)


(** ** Tooltip *)

(** X16.  Hovering a policyholder or agent node of a built graph shows
    a tooltip whose text is fully determined by the node's id (no field of
    such a node is undefined); leaving the node hides the tooltip and keeps
    its text and place; and with no tooltip element mounted neither handler
    does anything. *)
Theorem tooltip_on_built_nodes
  (toLocaleString toFixed1 numberToString : number -> string)
  (claims : option ObjectSet) (event : MouseEvent) (el : TooltipElement) :
  let g := buildGraphData claims in
  let show := showTooltip toLocaleString toFixed1 numberToString event in
  Forall (fun n =>
            exists phId,
              policyholderId n = Some phId
              /\ option_map innerHTML (show n (Some el))
                 = Some ("<strong>PH: " ++ phId
                         ++ "</strong><br/>Risk: High Risk")%string)
         (nodesOfType policyholder g)
  /\ Forall (fun n =>
               exists a,
                 In a sampleAgents
                 /\ option_map innerHTML (show n (Some el))
                    = Some ("<strong>" ++ a ++ "</strong>")%string)
            (nodesOfType agent g)
  /\ (forall n,
        exists shown,
          show n (Some el) = Some shown
          /\ style_opacity shown = "1"
          /\ hideTooltip (Some shown)
             = Some {| innerHTML := innerHTML shown;
                       style_opacity := "0";
                       style_left := style_left shown;
                       style_top := style_top shown |})
  /\ (forall n, show n None = None)
  /\ hideTooltip None = None.
Proof.
  intros g show. unfold g. rewrite !nodesOfType_records.
  repeat split.
  - destruct (records claims); [constructor |].
    apply Forall_map_const. intro phId. exists phId. split; reflexivity.
  - destruct (records claims); [constructor |].
    apply Forall_forall. intros n Hn. apply in_map_iff in Hn.
    destruct Hn as [a [<- Ha]]. exists a. split; [exact Ha | reflexivity].
  - intro n. eexists. repeat split.
Qed.

(** ** The tile widget *)

Lemma highRisk_red (c : ClaimRecord) :
  highRisk c = true <-> nodeColor (claimNode c) = "#ff4444".
Proof.
  unfold highRisk, nodeColor. cbn [type claimNode anomalyScore]. cbv zeta.
  destruct (prop_anomalyScore (properties c)) as [a |].
  - rewrite gt_orZero_70, gt_orZero_40. unfold gt.
    destruct (PrimFloat.ltb 70 a); [split; reflexivity |].
    destruct (PrimFloat.ltb 40 a); split; discriminate.
  - split; discriminate.
Qed.

(** X17.  The two widgets agree on what a high-risk claim is: a record
    passes the tile widget's filter exactly when the graph widget colours its
    claim node red; and a click on its tile sends the host the same payload
    as a click on its claim node. *)
Theorem high_risk_is_red (c : ClaimRecord) :
  (highRisk c = true <-> nodeColor (claimNode c) = "#ff4444")
  /\ handleNodeClick recordingEvents (claimNode c) []
     = [FlagSuspicious (tile_onClick (tileOf c))].
Proof. split; [apply highRisk_red | reflexivity]. Qed.

(** The first [n] elements that pass a filter are elements that pass it. *)
Lemma firstn_filter_In (A : Type) (p : A -> bool) (n : nat) (l : list A)
  (x : A) :
  In x (firstn n (filter p l)) -> In x l /\ p x = true.
Proof.
  intro H. apply filter_In.
  rewrite <- (firstn_skipn n (filter p l)). apply in_or_app. now left.
Qed.

(** Keys that are distinct over a list stay distinct over the first [n]
    elements that pass a filter. *)
Lemma firstn_filter_keys (A : Type) (key : A -> string) (p : A -> bool)
  (l : list A) :
  NoDup (map key l) ->
  forall n, NoDup (map key (firstn n (filter p l))).
Proof.
  induction l as [| a l IH]; intros Hnd n.
  - destruct n; constructor.
  - inversion Hnd as [| ? ? Ha Hl]; subst. cbn [filter].
    destruct (p a); [| now apply IH].
    destruct n as [| n]; [constructor |]. cbn [firstn map].
    constructor; [| now apply IH].
    intro Hin. apply Ha. apply in_map_iff in Hin.
    destruct Hin as [x [<- Hx]]. apply firstn_filter_In in Hx.
    apply in_map. tauto.
Qed.

Lemma numberedKey_inj (i j : nat) : numberedKey i = numberedKey j -> i = j.
Proof.
  unfold numberedKey. intro H.
  apply (f_equal list_ascii_of_string) in H.
  rewrite !list_ascii_of_string_of_list_ascii in H.
  apply (f_equal (@List.length ascii)) in H.
  now rewrite !repeat_length in H.
Qed.

Lemma numberedRecords_NoDup (n : nat) : NoDup (primaryKeys (numberedRecords n)).
Proof.
  unfold primaryKeys, numberedRecords. rewrite map_map. cbn [rec_primaryKey sampleRecord].
  apply Injective_map_NoDup; [| apply seq_NoDup].
  intros i j. apply numberedKey_inj.
Qed.

(** X18.  Over a non-empty array the tile widget reports in its heading the
    number of all records whose score is above 70 and renders a tile for the
    first 20 of them only, in input order: the tiles are a prefix of the
    tiles of the high-risk records.  Each tile carries its record's
    primaryKey as React key and as the [claimId] it flags; and distinct
    primaryKeys give distinct tile keys.  Over an empty array the prompt is
    shown. *)
Theorem tile_panel (objs : list ClaimRecord) :
  match FraudNetwork (claimsOf objs) with
  | Some (NetworkPanel highRiskCount tiles) =>
      objs <> []
      /\ highRiskCount = List.length (filter highRisk objs)
      /\ List.length tiles = Nat.min highRiskCount 20
      /\ (exists rest, map tileOf (filter highRisk objs) = tiles ++ rest)
      /\ Forall (fun t =>
                   exists c,
                     In c objs /\ highRisk c = true
                     /\ tile_key t = rec_primaryKey c
                     /\ tile_onClick t
                        = {| payload_claimId := rec_primaryKey c |})
                tiles
      /\ (NoDup (primaryKeys objs) -> NoDup (map tile_key tiles))
  | Some FilterPrompt => objs = []
  | None => False
  end.
Proof.
  destruct objs as [| c0 objs]; [reflexivity |].
  unfold FraudNetwork, claimsOf. cbn [objects notLength List.length]. cbv zeta.
  set (hr := filter highRisk (c0 :: objs)).
  split; [discriminate |]. split; [reflexivity |].
  split; [| split; [| split]].
  - rewrite length_map, length_firstn. apply Nat.min_comm.
  - exists (map tileOf (skipn 20 hr)).
    now rewrite <- map_app, firstn_skipn.
  - apply Forall_forall. intros t Ht. apply in_map_iff in Ht.
    destruct Ht as [c [<- Hc]]. unfold hr in Hc.
    apply firstn_filter_In in Hc. destruct Hc as [Hin Hhr].
    exists c. repeat split; assumption.
  - intro Hnd. rewrite map_map. cbn [tile_key tileOf].
    unfold hr. now apply firstn_filter_keys.
Qed.

(** Of 21 high-risk records the heading counts 21 and the first 20 get a
    tile. *)
Lemma tile_panel_witness :
  NoDup (primaryKeys (numberedRecords 21))
  /\ FraudNetwork (claimsOf (numberedRecords 21))
     = Some (NetworkPanel 21 (map tileOf (numberedRecords 20)))
  /\ NoDup (map tile_key (map tileOf (numberedRecords 20))).
Proof.
  pose proof (numberedRecords_NoDup 21) as H.
  split; [exact H |]. split; [reflexivity |].
  pose proof (tile_panel (numberedRecords 21)) as T.
  change (FraudNetwork (claimsOf (numberedRecords 21)))
    with (Some (NetworkPanel 21 (map tileOf (numberedRecords 20)))) in T.
  destruct T as [_ [_ [_ [_ [_ T]]]]]. exact (T H).
Defined.

(** X19.  The two widgets show their placeholder on the same inputs, except
    that the tile widget throws where [objects] is undefined under a defined
    [claims].  The graph widget's effect would throw in its guard there too,
    but in a render pass it does not, because the [svg] is not mounted when
    the placeholder is returned. *)
Theorem widget_guards (claims : option ObjectSet) :
  match FraudNetwork claims with
  | Some FilterPrompt => FraudNetworkWidget claims = Placeholder
  | Some (NetworkPanel _ _) => FraudNetworkWidget claims = GraphSurface
  | None =>
      FraudNetworkWidget claims = Placeholder
      /\ claims = Some {| objects := None |}
      /\ simulationEffect {| svgRef := true; simulationRef := None |} claims
         = EffectThrew
      /\ (forall prev : Refs,
            renderPass prev claims = (Placeholder, EffectReturned))
  end.
Proof.
  destruct claims as [[[[| c objs] |]] |]; try reflexivity.
  repeat split.
Qed.

Lemma length_filter_map (A B : Type) (f : A -> B) (q : B -> bool)
  (p : A -> bool) (l : list A) :
  (forall a, q (f a) = p a) ->
  List.length (filter q (map f l)) = List.length (filter p l).
Proof.
  intro H. induction l as [| a l IH]; simpl; [reflexivity |].
  rewrite H. destruct (p a); simpl; now rewrite IH.
Qed.

Lemma red_highRisk (c : ClaimRecord) :
  String.eqb (nodeColor (claimNode c)) "#ff4444" = highRisk c.
Proof.
  destruct (highRisk c) eqn:E.
  - apply highRisk_red in E. now rewrite E.
  - apply eqb_false_neq. intro H. apply highRisk_red in H. congruence.
Qed.

(** X20.  For at most 200 records with pairwise distinct primaryKeys the two
    widgets count alike: the graph widget draws as many red claim nodes as the
    tile widget reports high-risk claims in its heading. *)
Theorem red_nodes_match_heading (objs : list ClaimRecord) :
  NoDup (primaryKeys objs) ->
  List.length objs <= 200 ->
  List.length (redClaimNodes (buildGraphData (claimsOf objs)))
  = List.length (filter highRisk objs)
  /\ (objs <> [] ->
      exists tiles,
        FraudNetwork (claimsOf objs)
        = Some (NetworkPanel
                  (List.length (redClaimNodes (buildGraphData (claimsOf objs))))
                  tiles)).
Proof.
  intros Hnd Hlen.
  assert (Hcap : capped (records (claimsOf objs)) = objs).
  { cbn [records claimsOf]. unfold capped. now apply firstn_all2. }
  assert (Hred : List.length (redClaimNodes (buildGraphData (claimsOf objs)))
                 = List.length (filter highRisk objs)).
  { unfold redClaimNodes. rewrite claim_nodes_of_distinct, Hcap.
    - apply length_filter_map. exact red_highRisk.
    - now rewrite Hcap. }
  split; [exact Hred |].
  intro Hne. rewrite Hred. destruct objs as [| c0 objs]; [now elim Hne |].
  eexists. reflexivity.
Qed.

Lemma red_nodes_match_heading_witness :
  NoDup (primaryKeys [sampleRecord "C-1" "P-1"; sampleRecord "C-2" "P-1"])
  /\ List.length [sampleRecord "C-1" "P-1"; sampleRecord "C-2" "P-1"] <= 200
  /\ List.length
       (redClaimNodes
          (buildGraphData
             (claimsOf [sampleRecord "C-1" "P-1"; sampleRecord "C-2" "P-1"])))
     = 2.
Proof.
  assert (H : NoDup (primaryKeys [sampleRecord "C-1" "P-1";
                                  sampleRecord "C-2" "P-1"])).
  { repeat constructor; simpl; intuition discriminate. }
  assert (L : List.length [sampleRecord "C-1" "P-1"; sampleRecord "C-2" "P-1"]
              <= 200) by (simpl; lia).
  split; [exact H |]. split; [exact L |].
  destruct (@red_nodes_match_heading _ H L) as [E _].
  rewrite E. reflexivity.
Defined.
